(** * Cadence pipeline of notebooks/imu-stepcount.ipynb

    Shallow embedding of the step-counting notebook.  Floating-point
    numbers of the notebook (pandas/numpy float64) are modelled as exact
    rationals [Q]; sample times ([df.time], integer milliseconds) as [Z].
    Library routines whose numerics are transcendental (the Butterworth
    design [butter], the periodogram, the SVD inside PCA) are parameters;
    scipy's [filtfilt] (with [lfilter], [lfilter_zi] and [odd_ext]) is
    rational and is modelled over [Q] for any coefficients, and
    [find_peaks] without keyword arguments is modelled exactly (its
    [_local_maxima_1d] loop). *)

From Stdlib Require Import String DecimalString.
From Stdlib Require Import List Bool Arith ZArith QArith Qround Lia Lqa Sorted.
Import ListNotations.
Open Scope Q_scope.

(** ** Python helpers *)

(** Python's [max(a, b)] on the two peak counts. *)
Definition py_max (a b : nat) : nat := Nat.max a b.

(** [sum] of a list of floats. *)
Fixpoint qsum (l : list Q) : Q :=
  match l with
  | [] => 0
  | x :: t => x + qsum t
  end.

(** Value equality of two float lists (numpy [array_equal]). *)
Fixpoint qlist_eqb (l1 l2 : list Q) : bool :=
  match l1, l2 with
  | [], [] => true
  | x :: t1, y :: t2 => Qeq_bool x y && qlist_eqb t1 t2
  | _, _ => false
  end.

(** Float comparison [a < b]. *)
Definition Qlt_bool (a b : Q) : bool := negb (Qle_bool b a).

(** Element access [x[i]] (in range in every use below). *)
Definition at_ (x : list Q) (i : nat) : Q := nth i x 0.

(** ** scipy.signal.find_peaks without keyword arguments

    scipy's [_local_maxima_1d]: a peak is a plateau entered by a strict
    rise and left by a strict fall, both neighbours inside the array; the
    reported index is the plateau midpoint.

<<
    i = 1; i_max = x.shape[0] - 1
    while i < i_max:
        if x[i - 1] < x[i]:
            i_ahead = i + 1
            while i_ahead < i_max and x[i_ahead] == x[i]:
                i_ahead += 1
            if x[i_ahead] < x[i]:
                left = i; right = i_ahead - 1
                midpoints[m] = (left + right) // 2; m += 1
                i = i_ahead
        i += 1
>> *)

(** The inner [while]: [n] is the number of steps left before [i_max]. *)
Fixpoint ahead (x : list Q) (v : Q) (j n : nat) : nat :=
  match n with
  | O => j
  | S n' => if Qeq_bool (at_ x j) v then ahead x v (S j) n' else j
  end.

(** The outer [while]; [fuel] bounds the iterations (each one increases
    [i]). *)
Fixpoint lm_loop (x : list Q) (imax i fuel : nat) : list nat :=
  match fuel with
  | O => []
  | S fuel' =>
      if i <? imax then
        if Qlt_bool (at_ x (i - 1)) (at_ x i) then
          let ia := ahead x (at_ x i) (S i) (imax - S i) in
          if Qlt_bool (at_ x ia) (at_ x i) then
            ((i + (ia - 1)) / 2)%nat :: lm_loop x imax (S ia) fuel'
          else lm_loop x imax (S i) fuel'
        else lm_loop x imax (S i) fuel'
      else []
  end.

Definition local_maxima (x : list Q) : list nat :=
  lm_loop x (length x - 1) 1 (length x).

(** [find_peaks(x)] with no keyword arguments. *)
Definition find_peaks (x : list Q) : list nat := local_maxima x.

Example local_maxima_ex1 : local_maxima [0; 1; 0; 2; 2; 1; 3] = [1; 3]%nat.
Proof. reflexivity. Qed.

Example local_maxima_ex2 : local_maxima [0; 1; 1; 2; 2; 2] = []%nat.
Proof. reflexivity. Qed.

(** ** numpy.correlate(a, v, mode='full') and the notebook's [autocorr]

    numpy: [c[k] = sum_n a[n+k] * v[n]] for [k] from [-(len(v)-1)] to
    [len(a)-1], out-of-range terms dropped. *)

Definition dot (a v : list Q) : Q :=
  qsum (map (fun p => fst p * snd p) (combine a v)).

Definition correlate_at (a v : list Q) (k : Z) : Q :=
  if (0 <=? k)%Z then dot (skipn (Z.to_nat k) a) v
  else dot a (skipn (Z.to_nat (- k)) v).

Definition correlate_full (a v : list Q) : list Q :=
  map (fun j => correlate_at a v (Z.of_nat j - Z.of_nat (length v - 1)))
      (seq 0 (length a + length v - 1)).

(** [result = np.correlate(x, x, mode='full'); return result[:int(len(result)/2)]]
    on a non-empty [x]; np.correlate raises on an empty array, which
    [autocorr_py] models. *)
Definition autocorr (x : list Q) : list Q :=
  let result := correlate_full x x in
  firstn (length result / 2) result.

(** [autocorr_steps]: [len(find_peaks(autocorr(data))[0])]. *)
Definition autocorr_steps (data : list Q) : nat :=
  length (find_peaks (autocorr data)).

Example correlate_full_ex :
  qlist_eqb (correlate_full [1; 2; 3] [0; 1; 1#2]) [1#2; 2; 7#2; 3; 0] = true.
Proof. vm_compute. reflexivity. Qed.

(** ** Frames, windows and the per-window estimators *)

(** A column of [df] (e.g. [df.pca0]) together with [df.time]: one
    [(time, value)] pair per row, in row order. *)
Definition series := list (Z * Q).

(** [get_time_period(a, b)]: rows with [a*1000 <= time < b*1000]. *)
Definition get_time_period (df : series) (a b : Q) : series :=
  filter (fun r => Qle_bool (a * 1000) (inject_Z (fst r))
                   && Qlt_bool (inject_Z (fst r)) (b * 1000)) df.

(** [frame.time.max()] and [frame.time.min()] (an empty frame gives NaN
    in pandas; it is not used below). *)
Definition zmax_list (l : list Z) : Z :=
  match l with [] => 0%Z | t :: ts => fold_left Z.max ts t end.
Definition zmin_list (l : list Z) : Z :=
  match l with [] => 0%Z | t :: ts => fold_left Z.min ts t end.

(** [dt = (frame.time.max() - frame.time.min()) / 1000.0] *)
Definition window_dt (frame : series) : Q :=
  inject_Z (zmax_list (map fst frame) - zmin_list (map fst frame)) / 1000.

(** [to_steps_per_minute(step_count, dt) = step_count / dt * 60] for a
    non-zero [dt].  A zero [dt] (one-sample window) gives NaN or inf in
    numpy where this total version gives 0; [to_steps_per_minute_py]
    models numpy's values. *)
Definition to_steps_per_minute (step_count : nat) (dt : Q) : Q :=
  inject_Z (Z.of_nat step_count) / dt * 60.

Section Estimators.
(** [find_peaks(data, **pos_kwargs)] and [find_peaks(-data, **neg_kwargs)]:
    the peak finder configured by the two keyword sets. *)
Variables find_peaks_pos find_peaks_neg : list Q -> list nat.

(** [peak_detection_steps]: [max(len(peaks), len(neg_peaks))]. *)
Definition peak_detection_steps (data : list Q) : nat :=
  Nat.max (length (find_peaks_pos data))
          (length (find_peaks_neg (map Qopp data))).

(** The three configured [filter_series] calls of [get_spm]
    ([peak_detection_fc], [fft_fc], [autocorrelation_fc]). *)
Variables filter_peak filter_fft filter_ac : list Q -> list Q.

(** [fft_dominant_freq(data, fs)]: frequency of the periodogram maximum. *)
Variable fft_dominant_freq : list Q -> Q.

Record spm_row := {
  peak_detection_spm : Q;
  fft_spm : Q;
  autocorrelation_spm : Q
}.

(** The three entries of [get_spm(data, a, b, ...)], each on
    [frame = get_time_period(a, b)], [dt] and [data.loc[frame.index].values]. *)
Definition peak_method_spm (df : series) (a b : Q) : Q :=
  let frame := get_time_period df a b in
  to_steps_per_minute (peak_detection_steps (filter_peak (map snd frame)))
                      (window_dt frame).

Definition fft_method_spm (df : series) (a b : Q) : Q :=
  let frame := get_time_period df a b in
  fft_dominant_freq (filter_fft (map snd frame)) * 60.

Definition autocorrelation_method_spm (df : series) (a b : Q) : Q :=
  let frame := get_time_period df a b in
  to_steps_per_minute (autocorr_steps (filter_ac (map snd frame)))
                      (window_dt frame).

(** [get_spm(data, a, b, ...)] with total filters and estimators: it
    agrees with the program on windows where no step raises and
    [dt <> 0]; [get_spm_py] below follows the statements one by one with
    their exceptions and float64 results. *)
Definition get_spm (df : series) (a b : Q) : spm_row :=
  {| peak_detection_spm := peak_method_spm df a b;
     fft_spm := fft_method_spm df a b;
     autocorrelation_spm := autocorrelation_method_spm df a b |}.

(** [np.arange(0, df.time.max() / 1000, step)] with [step = 1.0]. *)
Definition window_starts (df : series) : list Q :=
  map (fun k => inject_Z (Z.of_nat k))
      (seq 0 (Z.to_nat (Qceiling (inject_Z (zmax_list (map fst df)) / 1000)))).

(** The loop of the acceleration cell: [b = a + dt] with [dt = 10]. *)
Definition aggregate (df : series) : list spm_row :=
  map (fun a => get_spm df a (a + 10)) (window_starts df).
End Estimators.

(** ** scipy.signal.lfilter, lfilter_zi, odd_ext and filtfilt

    [filter_series] applies [filtfilt(b, a, data)] with the [(b, a)] that
    [butter(5, ...)] designs (11 coefficients each for the band-pass, 6
    for the high- and low-pass).  lfilter divides both coefficient lists
    by [a[0]] and pads them with zeros to [max(len(a), len(b))] entries. *)

Definition ntaps (b a : list Q) : nat := Nat.max (length a) (length b).

Definition norm_b (b a : list Q) : list Q :=
  map (fun c => c / hd 0 a) (b ++ repeat 0 (ntaps b a - length b)).
Definition norm_a (b a : list Q) : list Q :=
  map (fun c => c / hd 0 a) (a ++ repeat 0 (ntaps b a - length a)).

(** The delay update of lfilter's transposed direct form II loop
    ([b1], [a1] are [b[1:]], [a[1:]]):
    [z[i] = z[i+1] + b[i+1]*x - a[i+1]*y], the last delay without a
    [z[i+1]] term (read as 0 past the end of [z]). *)
Fixpoint zupd (b1 a1 : list Q) (z : list Q) (x y : Q) : list Q :=
  match b1, a1 with
  | bi :: b1', ai :: a1' => (nth 1 z 0 + bi * x - ai * y) :: zupd b1' a1' (tl z) x y
  | _, _ => []
  end.

(** The sample loop: [y[n] = z[0] + b[0]*x[n]], then the delay update. *)
Fixpoint lfilter_run (bn an : list Q) (z : list Q) (xs : list Q) : list Q :=
  match xs with
  | [] => []
  | x :: xs' =>
      let y := hd 0 z + hd 0 bn * x in
      y :: lfilter_run bn an (zupd (tl bn) (tl an) z x y) xs'
  end.

(** [lfilter(b, a, x, zi=zi)[0]] *)
Definition lfilter (b a : list Q) (zi : list Q) (xs : list Q) : list Q :=
  lfilter_run (norm_b b a) (norm_a b a) zi xs.


(** [lfilter_zi(b, a)]: the solution of
    [(I - companion(a).T) zi = b[1:] - a[1:] * b[0]] (np.linalg.solve) on
    the normalised coefficients, i.e. the delays of the steady state of
    the step response: [zi[i] = sum_{j > i} (b[j] - a[j] * sum(b) / sum(a))]
    (see [lfilter_zi_solves]). *)
Definition lfilter_zi (b a : list Q) : list Q :=
  let bn := norm_b b a in
  let an := norm_a b a in
  let h1 := qsum bn / qsum an in
  map (fun i => qsum (map (fun c => fst c - snd c * h1) (skipn (S i) (combine bn an))))
      (seq 0 (ntaps b a - 1)).

(** [odd_ext(x, n)]: [2*x[0] - x[n:0:-1]], [x], [2*x[-1] - x[-2:-(n+2):-1]]. *)
Definition odd_ext (x : list Q) (n : nat) : list Q :=
  let left_ext := rev (firstn n (tl x)) in
  let right_ext := firstn n (tl (rev x)) in
  map (fun v => 2 * hd 0 x - v) left_ext ++ x ++ map (fun v => 2 * last x 0 - v) right_ext.

(** Python exceptions; numpy and scipy raise [ValueError] in every case below. *)
Inductive exc := ValueError.

Inductive res (A : Type) := Ok (v : A) | Raise (e : exc).
Arguments Ok {A} v.
Arguments Raise {A} e.

Definition res_bind {A B : Type} (r : res A) (f : A -> res B) : res B :=
  match r with Ok v => f v | Raise e => Raise e end.
Notation "x <- r ;; f" := (res_bind r (fun x => f))
  (at level 61, r at next level, right associativity).

(** [filtfilt(b, a, x)] (padtype='odd', padlen=None, method='pad'):
    [_validate_pad] raises [ValueError] unless [len(x) > edge = 3 * ntaps];
    forward lfilter over [ext = odd_ext(x, edge)] from [zi * ext[0]],
    backward lfilter over the reversed output from [zi * y[-1]], reversed
    again and cut to [y[edge:-edge]]. *)
Definition filtfilt (b a : list Q) (x : list Q) : res (list Q) :=
  let edge := (3 * ntaps b a)%nat in
  if (length x <=? edge)%nat then Raise ValueError
  else
    let ext := odd_ext x edge in
    let zi := lfilter_zi b a in
    let y := lfilter b a (map (fun z => z * hd 0 ext) zi) ext in
    let y' := lfilter b a (map (fun z => z * last y 0) zi) (rev y) in
    Ok (firstn (length x) (skipn edge (rev y'))).




(** ** [get_spm] with its exceptions and float64 results

    [filter_series(data, fc)] with the [(b, a)] that [butter(5, ...)]
    designs for [fc]; [None] stands for [fc = (None, None)], which returns
    the data unchanged. *)
Definition filter_series_py (design : option (list Q * list Q)) (data : list Q)
  : res (list Q) :=
  match design with None => Ok data | Some (b, a) => filtfilt b a data end.

(** [fft_dominant_freq(data, fs)]: [periodogram] returns [len(data)//2 + 1]
    bins for a non-empty window, and [np.argmax] of an empty one raises;
    [dom] is the frequency of the largest bin. *)
Definition fft_dominant_freq_py (dom : list Q -> Q) (data : list Q) : res Q :=
  match data with [] => Raise ValueError | _ => Ok (dom data) end.

(** [autocorr(x)]: [np.correlate] raises on an empty array. *)
Definition autocorr_py (x : list Q) : res (list Q) :=
  match x with [] => Raise ValueError | _ => Ok (autocorr x) end.

(** float64 values of the estimates. *)
Inductive pyfloat := PyNum (q : Q) | PyInf | PyNaN.

(** [dt = (frame.time.max() - frame.time.min()) / 1000.0]: NaN on an
    empty frame. *)
Definition window_dt_py (frame : series) : pyfloat :=
  match frame with [] => PyNaN | _ => PyNum (window_dt frame) end.

(** [step_count / dt * 60] in float64: [n / 0.0] is inf, [0 / 0.0] NaN. *)
Definition to_steps_per_minute_py (step_count : nat) (dt : pyfloat) : pyfloat :=
  match dt with
  | PyNum d =>
      if Qeq_bool d 0 then (if (step_count =? 0)%nat then PyNaN else PyInf)
      else PyNum (to_steps_per_minute step_count d)
  | PyInf => PyNum 0
  | PyNaN => PyNaN
  end.

Record spm_row_py := mk_spm_py {
  peak_detection_spm_py : pyfloat;
  fft_spm_py : pyfloat;
  autocorrelation_spm_py : pyfloat
}.

(** [get_spm(data, a, b, peak_detection_fc, fft_fc, autocorrelation_fc,
    peak_detection_kwargs)] statement by statement: an exception of any
    step aborts the whole call. *)
Definition get_spm_py (pk_pos pk_neg : list Q -> list nat)
  (fc_peak fc_fft fc_ac : option (list Q * list Q)) (dom : list Q -> Q)
  (df : series) (a b : Q) : res spm_row_py :=
  let frame := get_time_period df a b in
  let dt := window_dt_py frame in
  let data := map snd frame in
  d1 <- filter_series_py fc_peak data ;;
  let peak_steps := peak_detection_steps pk_pos pk_neg d1 in
  d2 <- filter_series_py fc_fft data ;;
  dominant_freq <- fft_dominant_freq_py dom d2 ;;
  d3 <- filter_series_py fc_ac data ;;
  ac <- autocorr_py d3 ;;
  let autocorr_step_count := length (find_peaks ac) in
  Ok {| peak_detection_spm_py := to_steps_per_minute_py peak_steps dt;
        fft_spm_py := PyNum (dominant_freq * 60);
        autocorrelation_spm_py := to_steps_per_minute_py autocorr_step_count dt |}.

(** A recording sampled at 100 Hz from time 0: [n] rows, [v i] at
    [10 * i] ms. *)
Definition sampled (v : nat -> Q) (n : nat) : series :=
  map (fun i => ((Z.of_nat i * 10)%Z, v i)) (seq 0 n).

(** ** Exponential moving average and the result frame *)

(** pandas [Series.ewm(alpha=alpha, adjust=False).mean()] on a series
    without NaN: [y[0] = x[0]], [y[t] = (1-alpha) * y[t-1] + alpha * x[t]]. *)
Fixpoint ewm_from (alpha prev : Q) (xs : list Q) : list Q :=
  match xs with
  | [] => []
  | x :: t =>
      let y := (1 - alpha) * prev + alpha * x in
      y :: ewm_from alpha y t
  end.

Definition ewm_mean (alpha : Q) (xs : list Q) : list Q :=
  match xs with
  | [] => []
  | x :: t => x :: ewm_from alpha x t
  end.

(** [acceleration_spm_df = pd.DataFrame(spms)] followed by the two
    [..._EMA] assignments with [alpha=0.3]; columns in insertion order. *)
Definition acceleration_spm_df (rows : list spm_row) : list (string * list Q) :=
  [("peak_detection_spm"%string, map peak_detection_spm rows);
   ("fft_spm"%string, map fft_spm rows);
   ("autocorrelation_spm"%string, map autocorrelation_spm rows);
   ("peak_detection_spm_EMA"%string, ewm_mean (3#10) (map peak_detection_spm rows));
   ("autocorrelation_spm_EMA"%string, ewm_mean (3#10) (map autocorrelation_spm rows))].

(** [df[name]]: [None] is a [KeyError]. *)
Fixpoint column (name : string) (cols : list (string * list Q)) : option (list Q) :=
  match cols with
  | [] => None
  | (n, c) :: t => if String.eqb n name then Some c else column name t
  end.

(** ** Gravity calibration *)

Record vec3 := mkvec { vx : Q; vy : Q; vz : Q }.

Definition vzero : vec3 := mkvec 0 0 0.
Definition vadd (u v : vec3) : vec3 := mkvec (vx u + vx v) (vy u + vy v) (vz u + vz v).
Definition vsub (u v : vec3) : vec3 := mkvec (vx u - vx v) (vy u - vy v) (vz u - vz v).
Definition vscale (c : Q) (u : vec3) : vec3 := mkvec (c * vx u) (c * vy u) (c * vz u).
Definition vdot (u v : vec3) : Q := vx u * vx v + vy u * vy v + vz u * vz v.
Definition veq (u v : vec3) : Prop := vx u == vx v /\ vy u == vy v /\ vz u == vz v.

(** A row of [df]: [time, aX, aY, aZ, gX, gY, gZ]. *)
Record Row := mkrow { time : Z; acc : vec3; gyro : vec3 }.

(** pandas column-wise [.mean()]: sum divided by the count. *)
Definition vmean (l : list vec3) : vec3 :=
  vscale (/ inject_Z (Z.of_nat (length l))) (fold_right vadd vzero l).

(** [df.time = df.time - df.time.min()] (data import cell). *)
Definition normalise_time (df : list Row) : list Row :=
  let t0 := zmin_list (map time df) in
  map (fun r => mkrow (time r - t0) (acc r) (gyro r)) df.

(** [_df = df.iloc[:9]; gravity_vector = _df.loc[:,["aX","aY","aZ"]].mean()] *)
Definition calibration_span : nat := 9.
Definition gravity_vector (df : list Row) : vec3 :=
  vmean (map acc (firstn calibration_span df)).

(** [df.loc[:,["aX","aY","aZ"]] = (df.loc[:,["aX","aY","aZ"]] - gravity_vector) * 9.8] *)
Definition correct_row (g : vec3) (r : Row) : Row :=
  mkrow (time r) (vscale (98 # 10) (vsub (acc r) g)) (gyro r).

Definition gravity_correct (df : list Row) : list Row :=
  map (correct_row (gravity_vector df)) df.

(** ** Motion axis: [PCA().fit_transform(df.loc[:,["aX","aY","aZ"]])]

    sklearn centres the data and projects it on the right singular vectors
    of the centred matrix.  The first component [u] is a unit vector of
    maximal projected variance (which one, and its sign, is up to the SVD
    routine, hence a parameter); column [pca0] is the centred data
    projected on [u].  The variance below omits sklearn's positive factor
    [1/(n-1)], which does not change the maximiser. *)
Definition pca0 (xs : list vec3) (u : vec3) : list Q :=
  let m := vmean xs in map (fun a => vdot (vsub a m) u) xs.

Definition projected_variance (xs : list vec3) (u : vec3) : Q :=
  let m := vmean xs in
  qsum (map (fun a => vdot (vsub a m) u * vdot (vsub a m) u) xs).

Definition unit_vec (u : vec3) : Prop := vdot u u == 1.

Definition principal_axis (xs : list vec3) (u : vec3) : Prop :=
  unit_vec u /\
  forall w, unit_vec w -> projected_variance xs w <= projected_variance xs u.

(** ** GPX export *)

(** Python [int(x)] on a float: truncation toward zero. *)
Definition py_int (q : Q) : Z := Z.quot (Qnum q) (Zpos (Qden q)).

(** Python [str] of an int. *)
Definition py_str_int (z : Z) : string := NilZero.string_of_int (Z.to_int z).

(** [int(cadence if cadence <= 254 else 254)] *)
Definition cad_value (cadence : Q) : Z :=
  py_int (if Qle_bool cadence 254 then cadence else 254).

Record TrackPointExtension := {
  ext_tag : string;
  cad_tag : string;
  cad_text : string
}.

(** [get_cadence_extension(cadence)] *)
Definition get_cadence_extension (cadence : Q) : TrackPointExtension :=
  {| ext_tag := "gpxtrx:TrackPointExtension"%string;
     cad_tag := "gpxtrx:cad"%string;
     cad_text := py_str_int (cad_value cadence) |}.

(** [cadence = acceleration_spm_df.peak_detection_spm_EMA], one extension
    per exported point. *)
Definition exported_extensions (rows : list spm_row) : list TrackPointExtension :=
  map get_cadence_extension (ewm_mean (3#10) (map peak_detection_spm rows)).

Example cad_ex1 : get_cadence_extension (3001 # 10) = get_cadence_extension 254.
Proof. reflexivity. Qed.
Example cad_ex2 : cad_text (get_cadence_extension (1537 # 10)) = "153"%string.
Proof. reflexivity. Qed.
Example cad_ex3 : cad_text (get_cadence_extension (-57 # 10)) = "-5"%string.
Proof. reflexivity. Qed.

(** ** Readings of the claims *)

(** The smoothed column [name_EMA] of the result frame, for a method
    whose raw column is [name]. *)
Definition smoothed_column (name : string) (rows : list spm_row) : option (list Q) :=
  column (String.append name "_EMA") (acceleration_spm_df rows).

(** Reading of C9: the one-sided autocorrelation at lags [-(n-1), ..., -1, 0]
    (numpy's full correlation up to and including the zero-lag entry, its
    last element) and the local maxima found in it other than the zero-lag
    one. *)
Definition onesided_acf (x : list Q) : list Q :=
  firstn (length x) (correlate_full x x).

Definition nonzero_lag_maxima (x : list Q) : list nat :=
  filter (fun k => negb (k =? length x - 1)%nat) (local_maxima (onesided_acf x)).

(** ** Sample recordings *)

(** 12 s at 100 Hz with one synthetic foot strike every 77 samples. *)
Definition strike (i : nat) : Q := if (i mod 77 =? 0)%nat then 1 else 0.
Definition walk_df : series :=
  map (fun i => ((Z.of_nat i * 10)%Z, strike i)) (seq 0 1200).

(** 10 s at 100 Hz of a device at rest (all-zero signal). *)
Definition still_df : series :=
  map (fun i => ((Z.of_nat i * 10)%Z, 0)) (seq 0 1000).

(** Five samples. *)
Definition five_df : series :=
  [(0%Z, 0); (10%Z, 1); (20%Z, 0); (30%Z, 1); (40%Z, 0)].

(** A band-pass design of order 5 has 11 coefficients: the identity
    filter padded to that length. *)
Definition still_design : list Q := 1 :: repeat 0 10.


(** ** Motion axis readings *)

(** The session preparation cells: gravity correction, then the [pca0]
    column (for the first axis [u] the SVD returns), indexed by time; the
    windowing loop [get_spm(df.pca0, a, b, ...)] runs on this series. *)
Definition prepare_session (df : list Row) (u : vec3) : series :=
  let c := gravity_correct df in combine (map time c) (pca0 (map acc c) u).

Definition e_x : vec3 := mkvec 1 0 0.
Definition e_y : vec3 := mkvec 0 1 0.
Definition e_z : vec3 := mkvec 0 0 1.
Definition vopp (u : vec3) : vec3 := mkvec (- vx u) (- vy u) (- vz u).

Definition veqb (u v : vec3) : bool :=
  Qeq_bool (vx u) (vx v) && Qeq_bool (vy u) (vy v) && Qeq_bool (vz u) (vz v).

(** Sum of the squared deviations of the x coordinates from their mean. *)
Definition x_spread (xs : list vec3) : Q :=
  let m := vmean xs in qsum (map (fun a => (vx a - vx m) * (vx a - vx m)) xs).

(** Coordinate [k] of an acceleration (0, 1, 2 for the columns aX, aY,
    aZ), the unit vector of that axis, and the sum of squared deviations
    of coordinate [k] from its mean. *)
Definition coord (k : nat) (a : vec3) : Q :=
  match k with O => vx a | 1%nat => vy a | _ => vz a end.
Definition axis (k : nat) : vec3 :=
  match k with O => e_x | 1%nat => e_y | _ => e_z end.
Definition axis_spread (k : nat) (xs : list vec3) : Q :=
  let m := vmean xs in
  qsum (map (fun a => (coord k a - coord k m) * (coord k a - coord k m)) xs).

(** Cyclic relabelling of the columns, (aX, aY, aZ) -> (aY, aZ, aX), and
    its powers: [vx (rot k a) = coord k a].  PCA treats the columns
    symmetrically. *)
Definition vrot (a : vec3) : vec3 := mkvec (vy a) (vz a) (vx a).
Definition rot (k : nat) (a : vec3) : vec3 :=
  match k with O => a | 1%nat => vrot a | _ => vrot (vrot a) end.

(** Two accelerations differing along the x axis only. *)
Definition x_only_xs : list vec3 := [mkvec 1 0 0; mkvec 3 0 0].

(** 12 samples at 100 Hz of a device at rest: the accelerometer reads
    gravity, 1 g along z. *)
Definition still_rows : list Row :=
  map (fun i => mkrow (Z.of_nat i * 10)%Z e_z vzero) (seq 0 12).

(** [y] is [x] multiplied by [c], element by element. *)
Definition scaled (c : Q) (y x : list Q) : Prop :=
  Forall2 (fun p q => p == c * q) y x.

(** A periodic trace: one sample every 100 ms for 10 s, the value
    repeating [-2, -1, 0, 1, 2] (period 0.5 s). *)
Definition trace_df : series :=
  map (fun i => ((Z.of_nat i * 100)%Z, inject_Z (Z.of_nat (i mod 5)) - 2)) (seq 0 100).

(** 30 rows recorded from t = 1 s, one every 100 ms, the x acceleration
    repeating [0, 1, 2, 3, 4] on top of 1 g along z. *)
Definition trace_rows : list Row :=
  map (fun i => mkrow (1000 + Z.of_nat i * 100)%Z
                      (mkvec (inject_Z (Z.of_nat (i mod 5))) 0 1) vzero) (seq 0 30).

(** * Properties *)

(** ** Arithmetic helpers *)

Lemma qsum_const (l : list Q) (c : Q) :
  (forall x, In x l -> x == c) ->
  qsum l == inject_Z (Z.of_nat (length l)) * c.
Proof.
  induction l as [|x t IH]; intros Hc; cbn [qsum length].
  - reflexivity.
  - rewrite (Hc x (or_introl eq_refl)), IH by (intros y Hy; apply Hc; now right).
    rewrite Nat2Z.inj_succ, <- Z.add_1_l, inject_Z_plus. ring.
Qed.

Lemma fold_vadd_vx (l : list vec3) :
  vx (fold_right vadd vzero l) = qsum (map vx l).
Proof. induction l as [|v t IH]; simpl; [reflexivity | now rewrite IH]. Qed.

Lemma fold_vadd_vy (l : list vec3) :
  vy (fold_right vadd vzero l) = qsum (map vy l).
Proof. induction l as [|v t IH]; simpl; [reflexivity | now rewrite IH]. Qed.

Lemma fold_vadd_vz (l : list vec3) :
  vz (fold_right vadd vzero l) = qsum (map vz l).
Proof. induction l as [|v t IH]; simpl; [reflexivity | now rewrite IH]. Qed.

(** The mean of a non-empty list of copies of [c] is [c]. *)
Lemma qmean_const (l : list Q) (c : Q) :
  l <> [] -> (forall x, In x l -> x == c) ->
  / inject_Z (Z.of_nat (length l)) * qsum l == c.
Proof.
  intros Hne Hc. rewrite (qsum_const l c Hc).
  assert (Hn : ~ inject_Z (Z.of_nat (length l)) == 0).
  { destruct l as [|x t]; [congruence|]. unfold Qeq; simpl. lia. }
  field. exact Hn.
Qed.

Lemma vmean_const (l : list vec3) (c : vec3) :
  l <> [] -> (forall v, In v l -> veq v c) -> veq (vmean l) c.
Proof.
  intros Hne Hc. unfold vmean, vscale; simpl.
  rewrite fold_vadd_vx, fold_vadd_vy, fold_vadd_vz.
  assert (Hlen : forall f : vec3 -> Q, length (map f l) = length l)
    by (intros; apply length_map).
  repeat split.
  - rewrite <- (Hlen vx). apply qmean_const.
    + destruct l; simpl; congruence.
    + intros x Hx. apply in_map_iff in Hx as (v & <- & Hv). apply Hc, Hv.
  - rewrite <- (Hlen vy). apply qmean_const.
    + destruct l; simpl; congruence.
    + intros x Hx. apply in_map_iff in Hx as (v & <- & Hv). apply Hc, Hv.
  - rewrite <- (Hlen vz). apply qmean_const.
    + destruct l; simpl; congruence.
    + intros x Hx. apply in_map_iff in Hx as (v & <- & Hv). apply Hc, Hv.
Qed.

(** ** C2: gravity calibration *)

(** C2. The gravity vector is the mean of the accelerations of the first
    [calibration_span] (9) rows, and every row is corrected as
    [(raw - gravity) * 9.8]; when those nine rows all read [(0,0,1)] g the
    gravity vector is exactly [(0,0,1)] and every row reading [(0,0,1)]
    is corrected to [(0,0,0)]. *)
Theorem gravity_calibration_stationary (df : list Row) :
  (calibration_span <= length df)%nat ->
  (forall r, In r (firstn calibration_span df) -> veq (acc r) (mkvec 0 0 1)) ->
  gravity_vector df = vmean (map acc (firstn calibration_span df)) /\
  gravity_correct df = map (fun r => mkrow (time r)
                                      (vscale (98 # 10) (vsub (acc r) (gravity_vector df)))
                                      (gyro r)) df /\
  veq (gravity_vector df) (mkvec 0 0 1) /\
  (forall r, In r df -> veq (acc r) (mkvec 0 0 1) ->
     veq (acc (correct_row (gravity_vector df) r)) vzero).
Proof.
  intros Hlen Hcal.
  assert (Hg : veq (gravity_vector df) (mkvec 0 0 1)).
  { unfold gravity_vector. apply vmean_const.
    - unfold calibration_span in *.
      destruct df as [|r t]; simpl in *; [lia | discriminate].
    - intros v Hv. apply in_map_iff in Hv as (r & <- & Hr). now apply Hcal. }
  split; [reflexivity|]. split; [reflexivity|]. split; [exact Hg|].
  intros r _ Hr. destruct Hg as (Gx & Gy & Gz). destruct Hr as (Rx & Ry & Rz).
  unfold correct_row, vscale, vsub, veq; simpl.
  rewrite Gx, Gy, Gz, Rx, Ry, Rz. repeat split; ring.
Qed.

(** ** C4: exponential smoothing *)

Lemma ewm_from_length (alpha p : Q) (xs : list Q) :
  length (ewm_from alpha p xs) = length xs.
Proof.
  revert p; induction xs as [|x t IH]; intros p; simpl; [reflexivity | now rewrite IH].
Qed.

Lemma ewm_mean_length (alpha : Q) (xs : list Q) :
  length (ewm_mean alpha xs) = length xs.
Proof. destruct xs; simpl; [reflexivity | now rewrite ewm_from_length]. Qed.

Lemma ewm_from_nth (alpha p : Q) (xs : list Q) (i : nat) :
  (i < length xs)%nat ->
  nth i (ewm_from alpha p xs) 0
  = (1 - alpha) * nth i (p :: ewm_from alpha p xs) 0 + alpha * nth i xs 0.
Proof.
  revert p i; induction xs as [|x t IH]; intros p i Hi; simpl in Hi; [lia|].
  destruct i as [|i]; [reflexivity|].
  cbn [ewm_from nth]. apply IH. lia.
Qed.

Lemma ewm_mean_nth (alpha : Q) (xs : list Q) (i : nat) :
  (S i < length xs)%nat ->
  nth (S i) (ewm_mean alpha xs) 0
  == alpha * nth (S i) xs 0 + (1 - alpha) * nth i (ewm_mean alpha xs) 0.
Proof.
  destruct xs as [|x t]; cbn [ewm_mean length]; intros Hi; [lia|].
  change (nth (S i) (x :: ewm_from alpha x t) 0) with (nth i (ewm_from alpha x t) 0).
  change (nth (S i) (x :: t) 0) with (nth i t 0).
  rewrite ewm_from_nth by lia. ring.
Qed.

Lemma ewm_from_const (alpha p k : Q) (xs : list Q) :
  p == k -> (forall x, In x xs -> x == k) ->
  forall y, In y (ewm_from alpha p xs) -> y == k.
Proof.
  revert p; induction xs as [|x t IH]; intros p Hp Hxs y Hy; simpl in Hy; [contradiction|].
  assert (Hq : (1 - alpha) * p + alpha * x == k).
  { rewrite Hp, (Hxs x (or_introl eq_refl)). ring. }
  destruct Hy as [<- | Hy]; [exact Hq|].
  exact (IH _ Hq (fun z Hz => Hxs z (or_intror Hz)) y Hy).
Qed.

Lemma ewm_mean_const (alpha k : Q) (xs : list Q) :
  (forall x, In x xs -> x == k) -> forall y, In y (ewm_mean alpha xs) -> y == k.
Proof.
  destruct xs as [|x t]; simpl; intros Hxs y Hy; [contradiction|].
  destruct Hy as [Hy | Hy]; [subst y; exact (Hxs x (or_introl eq_refl))|].
  exact (ewm_from_const alpha x k t (Hxs x (or_introl eq_refl))
           (fun z Hz => Hxs z (or_intror Hz)) y Hy).
Qed.

(** C4 (as stated, refuted). Only the peak-detection and autocorrelation
    columns are smoothed: for the FFT method there is no smoothed series
    ([acceleration_spm_df.fft_spm_EMA] does not exist). *)
Lemma fft_has_no_smoothed_series :
  column "fft_spm" (acceleration_spm_df
     [{| peak_detection_spm := 78; fft_spm := 156; autocorrelation_spm := 150 |}])
    = Some [156] /\
  smoothed_column "fft_spm" [{| peak_detection_spm := 78; fft_spm := 156;
                                autocorrelation_spm := 150 |}] = None.
Proof. split; reflexivity. Qed.

(** C4 (amended). For the peak-detection and the autocorrelation methods
    the result frame holds a smoothed column with [smoothed[0] = raw[0]]
    and [smoothed[i] = 0.3 raw[i] + 0.7 smoothed[i-1]]; if every raw value
    equals [k], every smoothed value equals [k]. *)
Theorem ema_smoothing_recurrence (rows : list spm_row) (name : string) :
  name = "peak_detection_spm"%string \/ name = "autocorrelation_spm"%string ->
  exists raw sm,
    column name (acceleration_spm_df rows) = Some raw /\
    smoothed_column name rows = Some sm /\
    length sm = length raw /\
    nth 0 sm 0 = nth 0 raw 0 /\
    (forall i, (S i < length raw)%nat ->
       nth (S i) sm 0 == (3#10) * nth (S i) raw 0 + (1 - (3#10)) * nth i sm 0) /\
    (forall k, (forall x, In x raw -> x == k) -> forall y, In y sm -> y == k).
Proof.
  intros [-> | ->];
    [ exists (map peak_detection_spm rows), (ewm_mean (3#10) (map peak_detection_spm rows))
    | exists (map autocorrelation_spm rows),
             (ewm_mean (3#10) (map autocorrelation_spm rows)) ];
    (split; [reflexivity|]); (split; [reflexivity|]);
    (split; [apply ewm_mean_length|]);
    (split; [destruct rows; reflexivity|]);
    (split; [intros i Hi; now apply ewm_mean_nth
            | intros k Hk; exact (ewm_mean_const _ k _ Hk)]).
Qed.

(** ** C5: cadence saturation in the GPX export *)

Lemma fold_max_ge (ts : list Z) (t : Z) : (t <= fold_left Z.max ts t)%Z.
Proof.
  revert t; induction ts as [|u us IH]; intros t; simpl; [lia|].
  specialize (IH (Z.max t u)). lia.
Qed.

Lemma fold_min_le (ts : list Z) (t : Z) : (fold_left Z.min ts t <= t)%Z.
Proof.
  revert t; induction ts as [|u us IH]; intros t; simpl; [lia|].
  specialize (IH (Z.min t u)). lia.
Qed.

Lemma zmin_le_zmax (l : list Z) : (zmin_list l <= zmax_list l)%Z.
Proof.
  destruct l as [|t ts]; simpl; [lia|].
  pose proof (fold_max_ge ts t). pose proof (fold_min_le ts t). lia.
Qed.

Lemma window_dt_nonneg (frame : series) : 0 <= window_dt frame.
Proof.
  unfold window_dt.
  pose proof (zmin_le_zmax (map fst frame)) as H.
  apply Qle_shift_div_l; [reflexivity|].
  rewrite Qmult_0_l. change 0 with (inject_Z 0). rewrite <- Zle_Qle. lia.
Qed.

Lemma to_steps_per_minute_nonneg (n : nat) (dt : Q) :
  0 <= dt -> 0 <= to_steps_per_minute n dt.
Proof.
  intros Hdt. unfold to_steps_per_minute, Qdiv.
  apply Qmult_le_0_compat; [|discriminate].
  apply Qmult_le_0_compat.
  - change 0 with (inject_Z 0). rewrite <- Zle_Qle. lia.
  - now apply Qinv_le_0_compat.
Qed.

Lemma ewm_from_nonneg (alpha p : Q) (xs : list Q) :
  0 <= alpha <= 1 -> 0 <= p -> (forall x, In x xs -> 0 <= x) ->
  forall y, In y (ewm_from alpha p xs) -> 0 <= y.
Proof.
  intros Ha; revert p; induction xs as [|x t IH]; intros p Hp Hxs y Hy;
    simpl in Hy; [contradiction|].
  assert (Hq : 0 <= (1 - alpha) * p + alpha * x).
  { pose proof (Hxs x (or_introl eq_refl)). nra. }
  destruct Hy as [Hy | Hy]; [subst y; exact Hq|].
  exact (IH _ Hq (fun z Hz => Hxs z (or_intror Hz)) y Hy).
Qed.

Lemma ewm_mean_nonneg (alpha : Q) (xs : list Q) :
  0 <= alpha <= 1 -> (forall x, In x xs -> 0 <= x) ->
  forall y, In y (ewm_mean alpha xs) -> 0 <= y.
Proof.
  intros Ha Hxs y Hy; destruct xs as [|x t]; simpl in Hy; [contradiction|].
  destruct Hy as [Hy | Hy]; [subst y; exact (Hxs x (or_introl eq_refl))|].
  exact (ewm_from_nonneg alpha x t Ha (Hxs x (or_introl eq_refl))
           (fun z Hz => Hxs z (or_intror Hz)) y Hy).
Qed.

Lemma py_int_range (c : Q) : 0 <= c -> c <= 254 -> (0 <= py_int c <= 254)%Z.
Proof.
  destruct c as [n d]. unfold py_int, Qle; simpl. intros H0 H1.
  rewrite Z.quot_div_nonneg by lia.
  split; [apply Z.div_pos; lia|].
  apply Z.div_le_upper_bound; lia.
Qed.

Lemma cad_value_saturates (c : Q) : 254 < c -> cad_value c = 254%Z.
Proof.
  intros H. unfold cad_value.
  replace (Qle_bool c 254) with false; [reflexivity|].
  symmetry. apply not_true_iff_false. rewrite Qle_bool_iff. now apply Qlt_not_le.
Qed.

Lemma cad_value_range (c : Q) : 0 <= c -> (0 <= cad_value c <= 254)%Z.
Proof.
  intros H. unfold cad_value. destruct (Qle_bool c 254) eqn:E.
  - apply Qle_bool_iff in E. now apply py_int_range.
  - vm_compute. split; discriminate.
Qed.

Lemma get_spm_peak_nonneg pk_pos pk_neg f_peak f_fft f_ac dom df a b :
  0 <= peak_detection_spm (get_spm pk_pos pk_neg f_peak f_fft f_ac dom df a b).
Proof. apply to_steps_per_minute_nonneg, window_dt_nonneg. Qed.

(** C5. Every cadence value the notebook hands to the exporter (the
    smoothed peak-detection series of the window loop) is serialised as the
    decimal text of an integer in [[0, 254]]; a value above 254 is
    saturated to 254 and still serialised (for any input value). *)
Theorem track_export_cadence_range
  (pk_pos pk_neg : list Q -> list nat) (f_peak f_fft f_ac : list Q -> list Q)
  (dom : list Q -> Q) (df : series) :
  let rows := aggregate pk_pos pk_neg f_peak f_fft f_ac dom df in
  let cadence := ewm_mean (3#10) (map peak_detection_spm rows) in
  exported_extensions rows = map get_cadence_extension cadence /\
  (forall c, In c cadence ->
     cad_text (get_cadence_extension c) = py_str_int (cad_value c) /\
     (0 <= cad_value c <= 254)%Z) /\
  (forall c : Q, 254 < c ->
     cad_text (get_cadence_extension c) = py_str_int 254).
Proof.
  intros rows cadence. split; [reflexivity|]. split.
  - intros c Hc. split; [reflexivity|].
    apply cad_value_range.
    refine (ewm_mean_nonneg (3#10) _ _ _ c Hc); [split; discriminate|].
    intros x Hx. apply in_map_iff in Hx as (r & <- & Hr).
    unfold rows, aggregate in Hr. apply in_map_iff in Hr as (a & <- & _).
    apply get_spm_peak_nonneg.
  - intros c Hc. simpl. now rewrite cad_value_saturates.
Qed.

(** ** The local-maxima loop *)

Lemma ahead_ge (x : list Q) (v : Q) (j n : nat) : (j <= ahead x v j n)%nat.
Proof.
  revert j; induction n as [|n IH]; intros j; simpl; [lia|].
  destruct (Qeq_bool (at_ x j) v); [specialize (IH (S j)); lia | lia].
Qed.

Lemma ahead_le (x : list Q) (v : Q) (j n : nat) : (ahead x v j n <= j + n)%nat.
Proof.
  revert j; induction n as [|n IH]; intros j; simpl; [lia|].
  destruct (Qeq_bool (at_ x j) v); [specialize (IH (S j)); lia | lia].
Qed.

Lemma lm_loop_done (x : list Q) (imax i fuel : nat) :
  (imax <= i)%nat -> lm_loop x imax i fuel = [].
Proof.
  intros H; destruct fuel; simpl; [reflexivity|].
  replace (i <? imax) with false; [reflexivity|].
  symmetry; apply Nat.ltb_ge; exact H.
Qed.

(** Any fuel covering the remaining iterations gives the same result. *)
Lemma lm_loop_fuel (x : list Q) (imax : nat) :
  forall f1 f2 i, (imax - i <= f1)%nat -> (imax - i <= f2)%nat ->
  lm_loop x imax i f1 = lm_loop x imax i f2.
Proof.
  induction f1 as [|f1 IH]; intros f2 i H1 H2.
  - rewrite lm_loop_done by lia. symmetry. apply lm_loop_done. lia.
  - destruct (Nat.lt_ge_cases i imax) as [Hi | Hi];
      [| rewrite !lm_loop_done by lia; reflexivity].
    destruct f2 as [|f2]; [lia|]. simpl.
    replace (i <? imax) with true by (symmetry; apply Nat.ltb_lt; exact Hi).
    pose proof (ahead_ge x (at_ x i) (S i) (imax - S i)).
    destruct (Qlt_bool (at_ x (i - 1)) (at_ x i));
      [destruct (Qlt_bool _ _); [f_equal|] |];
      apply IH; lia.
Qed.

(** Every reported index lies strictly before the last element. *)
Lemma lm_loop_bound (x : list Q) (imax : nat) :
  forall f i k, In k (lm_loop x imax i f) -> (k < imax)%nat.
Proof.
  induction f as [|f IH]; intros i k Hk; cbn [lm_loop] in Hk; [contradiction|].
  destruct (i <? imax) eqn:Hi; [|contradiction].
  apply Nat.ltb_lt in Hi.
  destruct (Qlt_bool (at_ x (i - 1)) (at_ x i)); [|exact (IH _ _ Hk)].
  destruct (Qlt_bool _ _); [|exact (IH _ _ Hk)].
  destruct Hk as [<- | Hk]; [|exact (IH _ _ Hk)].
  pose proof (ahead_le x (at_ x i) (S i) (imax - S i)).
  apply Nat.Div0.div_lt_upper_bound. lia.
Qed.

Lemma local_maxima_bound (x : list Q) (k : nat) :
  In k (local_maxima x) -> (k < length x - 1)%nat.
Proof. apply lm_loop_bound. Qed.

Lemma Qlt_bool_false (a b : Q) : b <= a -> Qlt_bool a b = false.
Proof. intros H. unfold Qlt_bool. apply Qle_bool_iff in H. now rewrite H. Qed.

(** Appending an element no smaller than the last one adds no peak. *)
Section Append.
Variables (x : list Q) (z : Q).
Hypothesis Hne : x <> [].
Hypothesis Hz : at_ x (length x - 1) <= z.

Let m := length x.

Lemma m_pos : (1 <= m)%nat.
Proof. unfold m; destruct x; simpl; [congruence | lia]. Qed.

Lemma at_app_lt (k : nat) : (k < m)%nat -> at_ (x ++ [z]) k = at_ x k.
Proof. intros H. unfold at_. now rewrite app_nth1. Qed.

Lemma at_app_last : at_ (x ++ [z]) m = z.
Proof. unfold at_, m. rewrite app_nth2 by lia. now rewrite Nat.sub_diag. Qed.

Lemma ahead_app (v : Q) (n : nat) :
  forall j, (j + n = m - 1)%nat ->
  ahead (x ++ [z]) v j (S n) = ahead x v j n \/
  (ahead x v j n = (m - 1)%nat /\ at_ x (m - 1) == v /\
   ahead (x ++ [z]) v j (S n) = m).
Proof.
  pose proof m_pos as Hm.
  induction n as [|n IH]; intros j Hj.
  - cbn [ahead]. rewrite at_app_lt by lia.
    destruct (Qeq_bool (at_ x j) v) eqn:E; [right | left; reflexivity].
    apply Qeq_bool_iff in E. replace (m - 1)%nat with j by lia.
    split; [reflexivity|]. split; [exact E | lia].
  - cbn [ahead]. rewrite at_app_lt by lia.
    destruct (Qeq_bool (at_ x j) v); [apply IH; lia | left; reflexivity].
Qed.

Lemma lm_loop_app :
  forall f i, (1 <= i)%nat ->
  lm_loop (x ++ [z]) m i f = lm_loop x (m - 1) i f.
Proof.
  pose proof m_pos as Hm.
  induction f as [|f IH]; intros i Hi; [reflexivity|].
  destruct (Nat.lt_ge_cases i (m - 1)) as [Hlt | Hge].
  - cbn [lm_loop].
    replace (i <? m) with true by (symmetry; apply Nat.ltb_lt; lia).
    replace (i <? m - 1) with true by (symmetry; apply Nat.ltb_lt; lia).
    rewrite !at_app_lt by lia.
    destruct (Qlt_bool (at_ x (i - 1)) (at_ x i)); [|apply IH; lia].
    replace (m - S i)%nat with (S (m - 1 - S i)) by lia.
    pose proof (ahead_le x (at_ x i) (S i) (m - 1 - S i)) as Hle.
    pose proof (ahead_ge x (at_ x i) (S i) (m - 1 - S i)) as Hge.
    destruct (ahead_app (at_ x i) (m - 1 - S i) (S i) ltac:(lia))
      as [Heq | (Hia & Hv & Hia')].
    + rewrite Heq. rewrite at_app_lt by lia.
      destruct (Qlt_bool _ _); [f_equal|]; apply IH; lia.
    + rewrite Hia, Hia', at_app_last.
      rewrite (Qlt_bool_false z (at_ x i)) by (rewrite <- Hv; exact Hz).
      rewrite (Qlt_bool_false (at_ x (m - 1)) (at_ x i)) by (rewrite Hv; apply Qle_refl).
      apply IH; lia.
  - destruct (Nat.eq_dec i (m - 1)) as [-> | Hne'].
    + rewrite (lm_loop_done x) by lia.
      cbn [lm_loop].
      replace (m - 1 <? m) with true by (symmetry; apply Nat.ltb_lt; lia).
      replace (m - S (m - 1))%nat with 0%nat by lia.
      replace (S (m - 1)) with m by lia.
      cbn [ahead]. rewrite at_app_last, !at_app_lt by lia.
      rewrite (Qlt_bool_false z (at_ x (m - 1))) by exact Hz.
      destruct (Qlt_bool _ _); apply lm_loop_done; lia.
    + rewrite !lm_loop_done by lia. reflexivity.
Qed.
End Append.

Lemma local_maxima_app (x : list Q) (z : Q) :
  at_ x (length x - 1) <= z -> local_maxima (x ++ [z]) = local_maxima x.
Proof.
  intros Hz. destruct x as [|y t] eqn:Ex; [reflexivity|].
  rewrite <- Ex in *. assert (Hne : x <> []) by (subst; discriminate).
  unfold local_maxima.
  rewrite length_app. simpl length. rewrite Nat.add_sub.
  rewrite (lm_loop_fuel (x ++ [z]) (length x) (length x + 1) (length x)) by lia.
  now apply lm_loop_app.
Qed.

(** ** The notebook's autocorrelation *)

Lemma sq_nonneg (q : Q) : 0 <= q * q.
Proof.
  destruct (Qlt_le_dec q 0) as [H | H].
  - setoid_replace (q * q) with ((- q) * (- q)) by ring.
    apply Qmult_le_0_compat; lra.
  - apply Qmult_le_0_compat; lra.
Qed.

Lemma dot_cons (a b : Q) (t u : list Q) : dot (a :: t) (b :: u) = a * b + dot t u.
Proof. reflexivity. Qed.

Lemma dot_self_nonneg (x : list Q) : 0 <= dot x x.
Proof.
  induction x as [|a t IH]; [apply Qle_refl|].
  rewrite dot_cons. pose proof (sq_nonneg a). lra.
Qed.

(** Lag one never exceeds lag zero: [2 sum x_i x_(i+1) <= 2 sum x_i^2]. *)
Lemma dot_lag1_aux (a : Q) (t : list Q) :
  2 * dot (a :: t) t <= dot (a :: t) (a :: t) + dot t t.
Proof.
  revert a; induction t as [|b t IH]; intros a.
  - change (dot [a] []) with 0. change (dot [] []) with 0. rewrite dot_cons.
    change (dot [] []) with 0. pose proof (sq_nonneg a). lra.
  - specialize (IH b). rewrite !dot_cons in *.
    pose proof (sq_nonneg (a - b)). lra.
Qed.

Lemma dot_lag1_le (x : list Q) : dot x (skipn 1 x) <= dot x x.
Proof.
  destruct x as [|a t]; [apply Qle_refl|]. simpl skipn.
  pose proof (dot_lag1_aux a t). pose proof (dot_self_nonneg t).
  rewrite dot_cons in *. pose proof (sq_nonneg a). lra.
Qed.

Lemma correlate_full_length (a v : list Q) :
  length (correlate_full a v) = (length a + length v - 1)%nat.
Proof. unfold correlate_full. now rewrite length_map, length_seq. Qed.

Lemma correlate_full_nth (a v : list Q) (k : nat) :
  (k < length a + length v - 1)%nat ->
  nth k (correlate_full a v) 0
  = correlate_at a v (Z.of_nat k - Z.of_nat (length v - 1)).
Proof.
  intros Hk. unfold correlate_full.
  set (f := fun j => correlate_at a v (Z.of_nat j - Z.of_nat (length v - 1))).
  rewrite (nth_indep _ 0 (f 0%nat)) by (rewrite length_map, length_seq; lia).
  rewrite map_nth, seq_nth by lia. reflexivity.
Qed.

Lemma firstn_snoc (l : list Q) (k : nat) :
  (k < length l)%nat -> firstn (S k) l = firstn k l ++ [nth k l 0].
Proof.
  revert k; induction l as [|y t IH]; intros k Hk; simpl in Hk; [lia|].
  destruct k as [|k]; [reflexivity|].
  cbn [firstn nth app]. f_equal. apply IH. lia.
Qed.

Lemma autocorr_firstn (x : list Q) :
  autocorr x = firstn (length x - 1) (correlate_full x x).
Proof.
  unfold autocorr. rewrite correlate_full_length. f_equal.
  destruct (length x) as [|k]; [reflexivity|].
  replace (S k + S k - 1)%nat with (k * 2 + 1)%nat by lia.
  rewrite Nat.div_add_l by lia. simpl. lia.
Qed.

Lemma filter_all_true {A} (f : A -> bool) (l : list A) :
  (forall k, In k l -> f k = true) -> filter f l = l.
Proof.
  induction l as [|y t IH]; intros H; simpl; [reflexivity|].
  rewrite (H y (or_introl eq_refl)), IH; [reflexivity|].
  intros k Hk; apply H; now right.
Qed.

Lemma correlate_at_zero (x : list Q) : correlate_at x x 0 = dot x x.
Proof. reflexivity. Qed.

Lemma correlate_at_minus_one (x : list Q) : correlate_at x x (-1) = dot x (skipn 1 x).
Proof. reflexivity. Qed.

(** [find_peaks(autocorr(x))] reports exactly the non-zero-lag local maxima
    of the one-sided autocorrelation. *)
Lemma autocorr_peaks (x : list Q) : local_maxima (autocorr x) = nonzero_lag_maxima x.
Proof.
  unfold nonzero_lag_maxima, onesided_acf.
  rewrite autocorr_firstn.
  destruct (length x) as [|k] eqn:En.
  - apply length_zero_iff_nil in En; subst. reflexivity.
  - rewrite firstn_snoc by (rewrite correlate_full_length; lia).
    rewrite local_maxima_app.
    + rewrite filter_all_true; [now replace (S k - 1)%nat with k by lia|].
      intros j Hj. apply local_maxima_bound in Hj.
      rewrite length_firstn, correlate_full_length in Hj.
      apply negb_true_iff, Nat.eqb_neq. lia.
    + rewrite correlate_full_nth by lia. rewrite En.
      replace (Z.of_nat k - Z.of_nat (S k - 1))%Z with 0%Z by lia.
      rewrite correlate_at_zero.
      rewrite length_firstn, correlate_full_length, En.
      replace (Nat.min k (S k + S k - 1)) with k by lia.
      destruct k as [|k]; [apply dot_self_nonneg|].
      unfold at_. rewrite nth_firstn.
      replace (S k - 1 <? S k)%nat with true by (symmetry; apply Nat.ltb_lt; lia).
      rewrite correlate_full_nth by lia. rewrite En.
      replace (Z.of_nat (S k - 1) - Z.of_nat (S (S k) - 1))%Z with (-1)%Z by lia.
      rewrite correlate_at_minus_one. apply dot_lag1_le.
Qed.

(** ** Lists *)

Lemma in_firstn_in {A} (n : nat) (l : list A) (y : A) : In y (firstn n l) -> In y l.
Proof. intros H. rewrite <- (firstn_skipn n l). apply in_or_app. now left. Qed.

Lemma in_skipn_in {A} (n : nat) (l : list A) (y : A) : In y (skipn n l) -> In y l.
Proof. intros H. rewrite <- (firstn_skipn n l). apply in_or_app. now right. Qed.

Lemma fold_max_in (ts : list Z) (t : Z) : In (fold_left Z.max ts t) (t :: ts).
Proof.
  revert t; induction ts as [|u us IH]; intros t; simpl; [now left|].
  destruct (IH (Z.max t u)) as [E | E].
  - rewrite <- E. destruct (Z.max_spec t u) as [[_ ->] | [_ ->]];
      [right; left; reflexivity | left; reflexivity].
  - right; now right.
Qed.

Lemma fold_min_in (ts : list Z) (t : Z) : In (fold_left Z.min ts t) (t :: ts).
Proof.
  revert t; induction ts as [|u us IH]; intros t; simpl; [now left|].
  destruct (IH (Z.min t u)) as [E | E].
  - rewrite <- E. destruct (Z.min_spec t u) as [[_ ->] | [_ ->]];
      [left; reflexivity | right; left; reflexivity].
  - right; now right.
Qed.

Lemma fold_max_ub (ts : list Z) (t u : Z) : In u (t :: ts) -> (u <= fold_left Z.max ts t)%Z.
Proof.
  revert t; induction ts as [|w ws IH]; intros t Hu; simpl in *.
  - destruct Hu as [E | []]; subst; lia.
  - pose proof (fold_max_ge ws (Z.max t w)).
    destruct Hu as [E | [E | Hu]]; [lia | lia |].
    apply IH. now right.
Qed.

Lemma fold_min_lb (ts : list Z) (t u : Z) : In u (t :: ts) -> (fold_left Z.min ts t <= u)%Z.
Proof.
  revert t; induction ts as [|w ws IH]; intros t Hu; simpl in *.
  - destruct Hu as [E | []]; subst; lia.
  - pose proof (fold_min_le ws (Z.min t w)).
    destruct Hu as [E | [E | Hu]]; [lia | lia |].
    apply IH. now right.
Qed.

(** [zmax_list] and [zmin_list] are the largest and the smallest time. *)
Lemma zmax_zmin_spec (l : list Z) :
  l <> [] ->
  In (zmax_list l) l /\ In (zmin_list l) l /\
  (forall t, In t l -> zmin_list l <= t <= zmax_list l)%Z.
Proof.
  destruct l as [|t ts]; intros Hne; [congruence|]. simpl.
  split; [apply fold_max_in|]. split; [apply fold_min_in|].
  intros u Hu. split; [now apply fold_min_lb | now apply fold_max_ub].
Qed.

(** ** lfilter is linear *)

Lemma hd_nth0 (l : list Q) : hd 0 l = nth 0 l 0.
Proof. now destruct l. Qed.

Lemma nth_tl0 (l : list Q) (i : nat) : nth i (tl l) 0 = nth (S i) l 0.
Proof. destruct l; [destruct i|]; reflexivity. Qed.

Lemma zupd_lin (b1 a1 z z1 z2 : list Q) (x x1 x2 y y1 y2 c1 c2 : Q) :
  (forall i, nth i z 0 == c1 * nth i z1 0 + c2 * nth i z2 0) ->
  x == c1 * x1 + c2 * x2 -> y == c1 * y1 + c2 * y2 ->
  forall i, nth i (zupd b1 a1 z x y) 0
            == c1 * nth i (zupd b1 a1 z1 x1 y1) 0 + c2 * nth i (zupd b1 a1 z2 x2 y2) 0.
Proof.
  revert a1 z z1 z2; induction b1 as [|bi b1 IH]; intros a1 z z1 z2 Hz Hx Hy i.
  - destruct i; simpl; ring.
  - destruct a1 as [|ai a1]; [destruct i; simpl; ring|].
    destruct i as [|i]; simpl.
    + rewrite (Hz 1%nat), Hx, Hy. ring.
    + apply IH; [|exact Hx|exact Hy]. intros j. rewrite !nth_tl0. apply Hz.
Qed.


(** Superposition: the output for a linear combination of delays and
    inputs is the same combination of the outputs. *)
Lemma lfilter_run_lin (bn an z z1 z2 xs xs1 xs2 : list Q) (c1 c2 : Q) :
  length xs = length xs1 -> length xs = length xs2 ->
  (forall i, nth i z 0 == c1 * nth i z1 0 + c2 * nth i z2 0) ->
  (forall i, nth i xs 0 == c1 * nth i xs1 0 + c2 * nth i xs2 0) ->
  forall n, nth n (lfilter_run bn an z xs) 0
            == c1 * nth n (lfilter_run bn an z1 xs1) 0 + c2 * nth n (lfilter_run bn an z2 xs2) 0.
Proof.
  revert z z1 z2 xs1 xs2; induction xs as [|x xs IH];
    intros z z1 z2 xs1 xs2 L1 L2 Hz Hx n.
  - destruct xs1, xs2; try discriminate. destruct n; simpl; ring.
  - destruct xs1 as [|x1 xs1], xs2 as [|x2 xs2]; try discriminate.
    simpl in L1, L2.
    assert (Hx0 : x == c1 * x1 + c2 * x2) by exact (Hx 0%nat).
    assert (Hy : hd 0 z + hd 0 bn * x
                 == c1 * (hd 0 z1 + hd 0 bn * x1) + c2 * (hd 0 z2 + hd 0 bn * x2)).
    { rewrite !hd_nth0, (Hz 0%nat), Hx0. ring. }
    destruct n as [|n]; simpl.
    + exact Hy.
    + apply IH; [lia | lia | |].
      * intros i. apply zupd_lin; assumption.
      * intros i. exact (Hx (S i)).
Qed.

Lemma length_lfilter_run (bn an z xs : list Q) : length (lfilter_run bn an z xs) = length xs.
Proof. revert z; induction xs; intros z; simpl; [reflexivity|]. now rewrite IHxs. Qed.



(** Zero delays and a zero input give a zero output. *)
Lemma lfilter_run_zero (bn an z xs : list Q) :
  (forall i, nth i z 0 == 0) -> (forall i, nth i xs 0 == 0) ->
  forall n, nth n (lfilter_run bn an z xs) 0 == 0.
Proof.
  intros Hz Hx n.
  rewrite (lfilter_run_lin bn an z z z xs xs xs 0 0 eq_refl eq_refl); [ring| |].
  - intros i. rewrite Hz. ring.
  - intros i. rewrite Hx. ring.
Qed.






(** ** odd_ext *)

Lemma nth_map_lt {A B} (f : A -> B) (l : list A) (j : nat) (da : A) (db : B) :
  (j < length l)%nat -> nth j (map f l) db = f (nth j l da).
Proof.
  intros H. rewrite (nth_indep _ db (f da)) by (rewrite length_map; exact H).
  apply map_nth.
Qed.

Lemma length_tl {A} (l : list A) : length (tl l) = (length l - 1)%nat.
Proof. destruct l; simpl; lia. Qed.

Lemma last_nth0 (l : list Q) : last l 0 = nth (length l - 1) l 0.
Proof.
  induction l as [|v l IH]; [reflexivity|].
  destruct l as [|w l]; [reflexivity|].
  change (last (v :: w :: l) 0) with (last (w :: l) 0). rewrite IH.
  simpl. rewrite Nat.sub_0_r. reflexivity.
Qed.

Lemma odd_ext_length (x : list Q) (p : nat) :
  (p < length x)%nat -> length (odd_ext x p) = (p + length x + p)%nat.
Proof.
  intros H. unfold odd_ext.
  rewrite !length_app, !length_map, length_rev, !length_firstn, !length_tl, length_rev. lia.
Qed.







(** ** Sums with one non-zero term, and truncated sums *)



Lemma nth_map_scale (l : list Q) (c : Q) (i : nat) :
  nth i (map (fun z => z * c) l) 0 == nth i l 0 * c.
Proof.
  destruct (Nat.lt_ge_cases i (length l)) as [H | H].
  - now rewrite (nth_map_lt _ _ _ 0) by exact H.
  - rewrite !nth_overflow by (rewrite ?length_map; exact H). ring.
Qed.

(** ** filtfilt on a test impulse *)


(** ** filtfilt on an all-zero signal *)

Lemma nth_zero_in (l : list Q) : (forall v, In v l -> v == 0) -> forall i, nth i l 0 == 0.
Proof.
  intros H i. destruct (Nat.lt_ge_cases i (length l)) as [Hi | Hi].
  - apply H, nth_In, Hi.
  - rewrite nth_overflow by exact Hi. reflexivity.
Qed.

Lemma in_zero_nth (l : list Q) : (forall i, nth i l 0 == 0) -> forall v, In v l -> v == 0.
Proof. intros H v Hv. apply (In_nth _ _ 0) in Hv as (i & _ & <-). apply H. Qed.

Lemma odd_ext_zero (x : list Q) (p : nat) :
  (forall v, In v x -> v == 0) -> forall v, In v (odd_ext x p) -> v == 0.
Proof.
  intros H v Hv. unfold odd_ext in Hv.
  assert (H0 : hd 0 x == 0) by (rewrite hd_nth0; apply nth_zero_in, H).
  assert (Hl : last x 0 == 0) by (rewrite last_nth0; apply nth_zero_in, H).
  apply in_app_or in Hv as [Hv | Hv]; [|apply in_app_or in Hv as [Hv | Hv]].
  - apply in_map_iff in Hv as (w & <- & Hw).
    apply in_rev, in_firstn_in in Hw. destruct x as [|u x]; [destruct Hw|].
    rewrite H0, (H w (or_intror Hw)). ring.
  - now apply H.
  - apply in_map_iff in Hv as (w & <- & Hw).
    apply in_firstn_in in Hw. destruct (rev x) as [|u r] eqn:Er; [destruct Hw|].
    assert (Hwx : In w x) by (apply in_rev; rewrite Er; now right).
    rewrite Hl, (H w Hwx). ring.
Qed.

Lemma filtfilt_zero (b a x : list Q) :
  (3 * ntaps b a < length x)%nat -> (forall v, In v x -> v == 0) ->
  exists y, filtfilt b a x = Ok y /\ length y = length x /\ forall v, In v y -> v == 0.
Proof.
  intros Hlen Hx. unfold filtfilt.
  replace (length x <=? 3 * ntaps b a)%nat with false by (symmetry; apply Nat.leb_gt; lia).
  cbv zeta. unfold lfilter.
  set (p := (3 * ntaps b a)%nat).
  set (bn := norm_b b a). set (an := norm_a b a). set (zi := lfilter_zi b a).
  set (ext := odd_ext x p).
  set (y1 := lfilter_run bn an (map (fun z => z * hd 0 ext) zi) ext).
  set (y2 := lfilter_run bn an (map (fun z => z * last y1 0) zi) (rev y1)).
  assert (Lext : length ext = (p + length x + p)%nat) by (unfold ext; apply odd_ext_length; lia).
  eexists; split; [reflexivity|]. split.
  { unfold y2. rewrite length_firstn, length_skipn, length_rev, length_lfilter_run, length_rev.
    unfold y1. rewrite length_lfilter_run. lia. }
  assert (Hext : forall i, nth i ext 0 == 0) by (apply nth_zero_in, odd_ext_zero, Hx).
  assert (Hy1 : forall i, nth i y1 0 == 0).
  { apply lfilter_run_zero; [|exact Hext].
    intros i. rewrite nth_map_scale, hd_nth0, Hext. ring. }
  assert (Hr1 : forall i, nth i (rev y1) 0 == 0).
  { apply nth_zero_in. intros v Hv. apply in_rev in Hv. revert v Hv. now apply in_zero_nth. }
  assert (Hy2 : forall i, nth i y2 0 == 0).
  { apply lfilter_run_zero; [|exact Hr1].
    intros i. rewrite nth_map_scale, last_nth0, Hy1. ring. }
  intros v Hv. apply in_firstn_in, in_skipn_in, in_rev in Hv. revert v Hv.
  now apply in_zero_nth.
Qed.

(** ** lfilter_zi solves the steady-state system *)

Lemma skipn_nth_cons {A} (l : list A) (j : nat) (d : A) :
  (j < length l)%nat -> skipn j l = nth j l d :: skipn (S j) l.
Proof.
  revert j; induction l as [|u l IH]; intros j H; [simpl in H; lia|].
  destruct j as [|j]; [reflexivity|]. simpl. apply IH. simpl in H. lia.
Qed.

Lemma qsum_combine (bn an : list Q) (h1 : Q) :
  length bn = length an ->
  qsum (map (fun c => fst c - snd c * h1) (combine bn an)) == qsum bn - qsum an * h1.
Proof.
  revert an; induction bn as [|u bn IH]; intros [|v an] H; simpl in *; try discriminate.
  - ring.
  - rewrite IH by lia. ring.
Qed.

Lemma length_norm_b (b a : list Q) : length (norm_b b a) = ntaps b a.
Proof. unfold norm_b, ntaps. rewrite length_map, length_app, repeat_length. lia. Qed.

Lemma length_norm_a (b a : list Q) : length (norm_a b a) = ntaps b a.
Proof. unfold norm_a, ntaps. rewrite length_map, length_app, repeat_length. lia. Qed.

(** [lfilter_zi] is the solution of the system that scipy's [lfilter_zi]
    hands to [np.linalg.solve]: row [i] of
    [(I - companion(a).T) zi = b[1:] - a[1:] * b[0]] reads
    [zi[i] + a[i+1] * zi[0] - zi[i+1] = b[i+1] - a[i+1] * b[0]]
    ([zi[i+1]] absent in the last row). *)
Lemma lfilter_zi_solves (b a : list Q) (i : nat) :
  let bn := norm_b b a in
  let an := norm_a b a in
  let zi := lfilter_zi b a in
  ~ hd 0 a == 0 -> ~ qsum an == 0 -> (S i < ntaps b a)%nat ->
  nth i zi 0 + nth (S i) an 0 * nth 0 zi 0 - nth (S i) zi 0
  == nth (S i) bn 0 - nth (S i) an 0 * nth 0 bn 0.
Proof.
  intros bn an zi Ha0 Hsum Hi.
  set (K := ntaps b a).
  set (h1 := qsum bn / qsum an).
  set (F := fun c : Q * Q => fst c - snd c * h1).
  set (w := combine bn an).
  set (T := fun j => qsum (map F (skipn j w))).
  assert (Lb : length bn = K) by apply length_norm_b.
  assert (La : length an = K) by apply length_norm_a.
  assert (Lw : length w = K) by (unfold w; rewrite length_combine; lia).
  assert (HT : forall j, (j < K)%nat -> T j == nth j bn 0 - nth j an 0 * h1 + T (S j)).
  { intros j Hj. unfold T. rewrite (skipn_nth_cons w j (0, 0)) by lia. simpl.
    unfold w. rewrite combine_nth by lia. reflexivity. }
  assert (Hzi : forall j, (j < K)%nat -> nth j zi 0 = T (S j)).
  { intros j Hj. unfold zi, lfilter_zi. fold bn an h1.
    destruct (Nat.lt_ge_cases j (K - 1)) as [Hj' | Hj'].
    - rewrite (nth_map_lt _ _ _ O) by (rewrite length_seq; exact Hj').
      rewrite seq_nth by exact Hj'. reflexivity.
    - rewrite nth_overflow by (rewrite length_map, length_seq; fold K; lia).
      unfold T. replace (S j) with K by lia. rewrite skipn_all2 by lia. reflexivity. }
  assert (Han0 : nth 0 an 0 == 1).
  { unfold an, norm_a. destruct a as [|a0 a]; [simpl in Ha0; now exfalso; apply Ha0|].
    simpl. field. exact Ha0. }
  assert (HT0 : T O == qsum bn - qsum an * h1).
  { unfold T, F, w. simpl skipn. apply qsum_combine. lia. }
  assert (Hqh : qsum an * h1 == qsum bn) by (unfold h1; field; exact Hsum).
  rewrite (Hzi i), (Hzi O), (Hzi (S i)) by lia.
  pose proof (HT O ltac:(lia)) as E0. pose proof (HT (S i) Hi) as E1.
  rewrite HT0, Hqh, Han0 in E0.
  assert (Z1 : T 1%nat == h1 - nth 0 bn 0) by lra.
  rewrite Z1. rewrite E1. ring.
Qed.

(** ** Full windows of a 100 Hz recording *)

Lemma filter_none {A} (f : A -> bool) (l : list A) :
  (forall y, In y l -> f y = false) -> filter f l = [].
Proof.
  induction l as [|y t IH]; intros H; simpl; [reflexivity|].
  rewrite (H y (or_introl eq_refl)). apply IH. intros z Hz; apply H; now right.
Qed.

Lemma filter_map_seq {A} (f : nat -> A) (P : A -> bool) (lo len n : nat) :
  (lo + len <= n)%nat ->
  (forall i, P (f i) = true <-> (lo <= i < lo + len)%nat) ->
  filter P (map f (seq 0 n)) = map f (seq lo len).
Proof.
  intros Hn HP.
  replace n with (lo + (len + (n - lo - len)))%nat by lia.
  rewrite !seq_app, !map_app, !filter_app. simpl.
  rewrite (filter_none _ (map f (seq 0 lo))), (filter_all_true _ (map f (seq lo len))),
    (filter_none _ (map f (seq (lo + len) _))), app_nil_r; [reflexivity| | |].
  - intros y Hy. apply in_map_iff in Hy as (i & <- & Hi). apply in_seq in Hi.
    destruct (P (f i)) eqn:E; [apply HP in E; lia | reflexivity].
  - intros y Hy. apply in_map_iff in Hy as (i & <- & Hi). apply in_seq in Hi.
    apply HP. lia.
  - intros y Hy. apply in_map_iff in Hy as (i & <- & Hi). apply in_seq in Hi.
    destruct (P (f i)) eqn:E; [apply HP in E; lia | reflexivity].
Qed.

Lemma sampled_window_rows (v : nat -> Q) (n k : nat) :
  (100 * (k + 10) <= n)%nat ->
  get_time_period (sampled v n) (inject_Z (Z.of_nat k)) (inject_Z (Z.of_nat k) + 10)
  = map (fun i => ((Z.of_nat i * 10)%Z, v i)) (seq (100 * k) 1000).
Proof.
  intros Hn. unfold get_time_period, sampled. apply filter_map_seq; [lia|].
  intros i. cbn [fst]. rewrite andb_true_iff, Qle_bool_iff. unfold Qlt_bool.
  rewrite negb_true_iff, <- not_true_iff_false, Qle_bool_iff.
  unfold Qle, Qlt. simpl. lia.
Qed.

Lemma sampled_window_dt (v : nat -> Q) (n k : nat) :
  (100 * (k + 10) <= n)%nat ->
  window_dt (get_time_period (sampled v n) (inject_Z (Z.of_nat k)) (inject_Z (Z.of_nat k) + 10))
  == 999 # 100.
Proof.
  intros Hn. rewrite sampled_window_rows by exact Hn. unfold window_dt.
  rewrite map_map. cbn [fst].
  set (l := map (fun i => (Z.of_nat i * 10)%Z) (seq (100 * k) 1000)).
  assert (Hin : forall t, In t l <-> exists i, t = (Z.of_nat i * 10)%Z /\ (100 * k <= i < 100 * k + 1000)%nat).
  { intros t. unfold l. rewrite in_map_iff. split.
    - intros (i & <- & Hi). apply in_seq in Hi. exists i. split; [reflexivity | lia].
    - intros (i & -> & Hi). exists i. split; [reflexivity|]. apply in_seq. lia. }
  destruct (zmax_zmin_spec l) as (Hmax & Hmin & Hb).
  { intros E. assert (H0 : In (Z.of_nat (100 * k) * 10)%Z l) by (apply Hin; exists (100 * k)%nat; split; [reflexivity | lia]).
    rewrite E in H0. destruct H0. }
  assert (Emax : zmax_list l = (Z.of_nat (100 * k + 999) * 10)%Z).
  { apply Hin in Hmax as (i & Ei & Hi).
    assert (Hl : In (Z.of_nat (100 * k + 999) * 10)%Z l) by (apply Hin; eexists; split; [reflexivity | lia]).
    apply Hb in Hl. lia. }
  assert (Emin : zmin_list l = (Z.of_nat (100 * k) * 10)%Z).
  { apply Hin in Hmin as (i & Ei & Hi).
    assert (Hl : In (Z.of_nat (100 * k) * 10)%Z l) by (apply Hin; eexists; split; [reflexivity | lia]).
    apply Hb in Hl. lia. }
  rewrite Emax, Emin.
  replace (Z.of_nat (100 * k + 999) * 10 - Z.of_nat (100 * k) * 10)%Z with 9990%Z by lia.
  reflexivity.
Qed.

Lemma window_times_bounds (df : series) (a b : Q) (t : Z) :
  In t (map fst (get_time_period df a b)) -> a * 1000 <= inject_Z t /\ inject_Z t < b * 1000.
Proof.
  intros Ht. unfold get_time_period in Ht.
  apply in_map_iff in Ht as (r & <- & Hr).
  apply filter_In in Hr as (_ & Hr). apply andb_true_iff in Hr as (H1 & H2).
  apply Qle_bool_iff in H1. unfold Qlt_bool in H2. apply negb_true_iff in H2.
  split; [exact H1|]. apply Qnot_le_lt. intros H. apply Qle_bool_iff in H. congruence.
Qed.

(** ** C1, C9, C10: steps per minute *)

Lemma neq_by_bool (p q : Q) : Qeq_bool p q = false -> ~ p == q.
Proof. intros E H. apply Qeq_bool_iff in H. congruence. Qed.

(** C1 (as stated, refuted). On the first 10 s window of the 100 Hz
    recording [walk_df] (12 maxima counted) the peak-based estimate is not
    [12 / 10 * 60]: the code divides by the observed span, 9.99 s. *)
Lemma peak_spm_not_per_window_duration :
  peak_detection_steps find_peaks find_peaks
    (map snd (get_time_period walk_df 0 10)) = 12%nat /\
  window_dt (get_time_period walk_df 0 10) == 999 # 100 /\
  ~ peak_method_spm find_peaks find_peaks (fun d => d) walk_df 0 10
    == inject_Z 12 / 10 * 60.
Proof.
  split; [vm_compute; reflexivity|]. split; [vm_compute; reflexivity|].
  apply neq_by_bool. vm_compute. reflexivity.
Qed.

(** C1 (amended). The peak-based estimate of the window [[a, b)] is
    [max(#maxima, #minima) / span * 60]: maxima are found on the
    (configured, by default unfiltered) window values, minima as maxima of
    their negation, each with its own [find_peaks] keyword set, and [span]
    is the observed duration [(max time - min time) / 1000] s of the
    window's samples, the largest and smallest of which lie in
    [[a * 1000, b * 1000)] ms. For a full window [[k, k + 10)] of a
    100 Hz recording the window holds samples [100k .. 100k + 999] and the
    divisor is 9.99 s. *)
Theorem peak_detection_estimator
  (pk_pos pk_neg : list Q -> list nat) (f_peak : list Q -> list Q)
  (df : series) (a b : Q) :
  let frame := get_time_period df a b in
  let vals := f_peak (map snd frame) in
  let times := map fst frame in
  (zmin_list times < zmax_list times)%Z ->
  peak_method_spm pk_pos pk_neg f_peak df a b
  == inject_Z (Z.of_nat (Nat.max (length (pk_pos vals))
                                 (length (pk_neg (map Qopp vals)))))
     / (inject_Z (zmax_list times - zmin_list times) / 1000) * 60 /\
  0 < window_dt frame /\
  In (zmax_list times) times /\ In (zmin_list times) times /\
  (forall t, In t times ->
     (zmin_list times <= t <= zmax_list times)%Z /\ a * 1000 <= inject_Z t < b * 1000) /\
  (forall (v : nat -> Q) (n k : nat), (100 * (k + 10) <= n)%nat ->
     let w := get_time_period (sampled v n) (inject_Z (Z.of_nat k)) (inject_Z (Z.of_nat k) + 10) in
     map snd w = map v (seq (100 * k) 1000) /\
     window_dt w == 999 # 100 /\
     peak_method_spm pk_pos pk_neg f_peak (sampled v n) (inject_Z (Z.of_nat k)) (inject_Z (Z.of_nat k) + 10)
     == to_steps_per_minute (peak_detection_steps pk_pos pk_neg (f_peak (map v (seq (100 * k) 1000))))
                            (999 # 100)).
Proof.
  intros frame vals times Hlt.
  assert (Hne : times <> []) by (intros E; rewrite E in Hlt; simpl in Hlt; lia).
  destruct (zmax_zmin_spec times Hne) as (Hmax & Hmin & Hb).
  split; [reflexivity|]. split.
  { unfold window_dt. fold times. unfold Qlt, Qdiv, Qmult, Qinv. simpl. lia. }
  split; [exact Hmax|]. split; [exact Hmin|]. split.
  { intros t Ht. split; [now apply Hb | exact (window_times_bounds df a b t Ht)]. }
  intros v n k Hn w. split; [|split].
  - unfold w. rewrite sampled_window_rows by exact Hn. now rewrite map_map.
  - now apply sampled_window_dt.
  - assert (Hdt : window_dt w == 999 # 100) by (apply sampled_window_dt; exact Hn).
    unfold peak_method_spm. cbv zeta. fold w.
    replace (map snd w) with (map v (seq (100 * k) 1000))
      by (unfold w; rewrite sampled_window_rows by exact Hn; now rewrite map_map).
    unfold to_steps_per_minute. rewrite Hdt. reflexivity.
Qed.

(** C9 (as stated, refuted). On the same window (12 non-zero-lag maxima
    of the one-sided autocorrelation) the autocorrelation estimate is not
    [12 / 10 * 60], because of the same 9.99 s divisor. *)
Lemma autocorrelation_spm_not_per_window_duration :
  length (nonzero_lag_maxima (map snd (get_time_period walk_df 0 10))) = 12%nat /\
  ~ autocorrelation_method_spm (fun d => d) walk_df 0 10 == inject_Z 12 / 10 * 60.
Proof.
  split; [vm_compute; reflexivity|].
  apply neq_by_bool. vm_compute. reflexivity.
Qed.

(** C9 (amended). For any configured filter, the autocorrelation estimate
    of a window counts the local maxima ([find_peaks]) of the one-sided
    autocorrelation of the filtered window values, the zero-lag one
    excluded, and divides that count by the observed span
    [(max time - min time) / 1000] s, times 60. *)
Theorem autocorrelation_estimator (f_ac : list Q -> list Q) (df : series) (a b : Q) :
  let vals := f_ac (map snd (get_time_period df a b)) in
  let times := map fst (get_time_period df a b) in
  autocorrelation_method_spm f_ac df a b
  == inject_Z (Z.of_nat (length (nonzero_lag_maxima vals)))
     / (inject_Z (zmax_list times - zmin_list times) / 1000) * 60.
Proof.
  intros vals times. unfold autocorrelation_method_spm, autocorr_steps, find_peaks.
  rewrite autocorr_peaks. reflexivity.
Qed.

(** C10. Both count-based estimates of [get_spm] divide by the observed
    span of the window's own samples, [(max time - min time) / 1000] s
    ([zmax_list]/[zmin_list] are the largest and smallest selected time,
    every selected time lies in [[a*1000, b*1000)]), not by [b - a]; e.g.
    the trailing window [[5, 15)] of the 12 s recording is normalised by
    6.99 s. *)
Theorem spm_normalised_by_observed_span
  (pk_pos pk_neg : list Q -> list nat) (f_peak f_fft f_ac : list Q -> list Q)
  (dom : list Q -> Q) (df : series) (a b : Q) :
  let frame := get_time_period df a b in
  let times := map fst frame in
  let span := inject_Z (zmax_list times - zmin_list times) / 1000 in
  let row := get_spm pk_pos pk_neg f_peak f_fft f_ac dom df a b in
  peak_detection_spm row
    = to_steps_per_minute (peak_detection_steps pk_pos pk_neg (f_peak (map snd frame))) span /\
  autocorrelation_spm row
    = to_steps_per_minute (autocorr_steps (f_ac (map snd frame))) span /\
  (frame <> [] ->
     In (zmax_list times) times /\ In (zmin_list times) times /\
     (forall t, In t times -> zmin_list times <= t <= zmax_list times)%Z) /\
  (forall t, In t times -> a * 1000 <= inject_Z t /\ inject_Z t < b * 1000) /\
  window_dt (get_time_period walk_df 5 15) == 699 # 100.
Proof.
  intros frame times span row.
  split; [reflexivity|]. split; [reflexivity|]. split.
  - intros Hne. apply zmax_zmin_spec. unfold times. destruct frame; simpl; congruence.
  - split; [|vm_compute; reflexivity].
    intros t Ht. unfold times, frame, get_time_period in Ht.
    apply in_map_iff in Ht as (r & <- & Hr).
    apply filter_In in Hr as (_ & Hr). apply andb_true_iff in Hr as (H1 & H2).
    apply Qle_bool_iff in H1. unfold Qlt_bool in H2. apply negb_true_iff in H2.
    split; [exact H1|]. apply Qnot_le_lt. intros H. apply Qle_bool_iff in H. congruence.
Qed.

(** ** C3: no WindowTooShort / NoSignal outcome *)

Lemma at_flat (x : list Q) (k : nat) : (forall y, In y x -> y == 0) -> at_ x k == 0.
Proof.
  intros H. unfold at_. destruct (Nat.lt_ge_cases k (length x)) as [Hk | Hk].
  - apply H, nth_In, Hk.
  - rewrite nth_overflow by exact Hk. reflexivity.
Qed.

Lemma local_maxima_flat (x : list Q) : (forall y, In y x -> y == 0) -> local_maxima x = [].
Proof.
  intros H. unfold local_maxima.
  assert (G : forall imax f i, lm_loop x imax i f = []); [|apply G].
  intros imax f. induction f as [|f IH]; intros i; [reflexivity|]. cbn [lm_loop].
  rewrite (Qlt_bool_false (at_ x (i - 1)) (at_ x i))
    by (rewrite !at_flat by exact H; apply Qle_refl).
  destruct (i <? imax); [apply IH | reflexivity].
Qed.

Lemma dot_flat_l (a v : list Q) : (forall y, In y a -> y == 0) -> dot a v == 0.
Proof.
  revert v; induction a as [|y t IH]; intros v H; [reflexivity|].
  destruct v as [|w u]; [reflexivity|]. rewrite dot_cons.
  rewrite (H y (or_introl eq_refl)), IH by (intros z Hz; apply H; now right). ring.
Qed.

Lemma dot_flat_r (a v : list Q) : (forall y, In y v -> y == 0) -> dot a v == 0.
Proof.
  revert v; induction a as [|y t IH]; intros v H; [reflexivity|].
  destruct v as [|w u]; [reflexivity|]. rewrite dot_cons.
  rewrite (H w (or_introl eq_refl)), IH by (intros z Hz; apply H; now right). ring.
Qed.

Lemma autocorr_flat (x : list Q) : (forall y, In y x -> y == 0) -> autocorr_steps x = 0%nat.
Proof.
  intros H. unfold autocorr_steps, find_peaks. rewrite local_maxima_flat; [reflexivity|].
  intros y Hy. unfold autocorr in Hy. apply in_firstn_in in Hy.
  unfold correlate_full in Hy. apply in_map_iff in Hy as (j & <- & _).
  unfold correlate_at. destruct (0 <=? _)%Z.
  - apply dot_flat_r, H.
  - apply dot_flat_l, H.
Qed.

(** ** The fallible [get_spm] *)

Lemma to_steps_per_minute_py_zero (frame : series) :
  (zmin_list (map fst frame) < zmax_list (map fst frame))%Z ->
  exists q, to_steps_per_minute_py 0 (window_dt_py frame) = PyNum q /\ q == 0.
Proof.
  intros Hlt. destruct frame as [|r rs]; [simpl in Hlt; lia|].
  cbn [window_dt_py to_steps_per_minute_py].
  replace (Qeq_bool (window_dt (r :: rs)) 0) with false.
  - eexists; split; [reflexivity|]. unfold to_steps_per_minute, Qdiv. simpl. ring.
  - symmetry. apply not_true_iff_false. rewrite Qeq_bool_iff. intros E.
    revert E. unfold window_dt.
    set (d := (zmax_list (map fst (r :: rs)) - zmin_list (map fst (r :: rs)))%Z).
    assert (Hd : (0 < d)%Z) by (unfold d; lia). clearbody d.
    unfold Qeq, Qdiv, Qmult, Qinv. simpl. lia.
Qed.

Lemma peak_steps_flat (pk_pos pk_neg : list Q -> list nat) (x : list Q) :
  (forall x k, In k (pk_pos x) -> In k (local_maxima x)) ->
  (forall x k, In k (pk_neg x) -> In k (local_maxima x)) ->
  (forall y, In y x -> y == 0) ->
  peak_detection_steps pk_pos pk_neg x = 0%nat.
Proof.
  intros Hpos Hneg Hx.
  assert (Hempty : forall pk : list Q -> list nat,
            (forall x k, In k (pk x) -> In k (local_maxima x)) ->
            forall x, (forall y, In y x -> y == 0) -> pk x = []).
  { intros pk Hpk z Hz. destruct (pk z) as [|k t] eqn:E; [reflexivity|].
    exfalso. specialize (Hpk z k). rewrite E, local_maxima_flat in Hpk by exact Hz.
    apply Hpk. now left. }
  unfold peak_detection_steps. rewrite (Hempty pk_pos Hpos x Hx), (Hempty pk_neg Hneg).
  - reflexivity.
  - intros y Hy. apply in_map_iff in Hy as (z & <- & Hz). rewrite (Hx z Hz). reflexivity.
Qed.

(** With a filter padded by 33 samples for the FFT estimate, a window of
    at most 33 samples makes the whole call raise. *)
Lemma get_spm_py_short (pk_pos pk_neg : list Q -> list nat) (fc_peak : option (list Q * list Q))
  (bf af : list Q) (fc_ac : option (list Q * list Q)) (dom : list Q -> Q) (df : series) (a b : Q) :
  (forall x, exists y, filter_series_py fc_peak x = Ok y) ->
  (length (get_time_period df a b) <= 3 * ntaps bf af)%nat ->
  get_spm_py pk_pos pk_neg fc_peak (Some (bf, af)) fc_ac dom df a b = Raise ValueError.
Proof.
  intros Hp Hlen. unfold get_spm_py. cbv zeta.
  destruct (Hp (map snd (get_time_period df a b))) as (y & ->). cbn [res_bind filter_series_py].
  unfold filtfilt. rewrite length_map.
  replace (length (get_time_period df a b) <=? 3 * ntaps bf af)%nat with true
    by (symmetry; apply Nat.leb_le; exact Hlen).
  reflexivity.
Qed.

(** An all-zero window longer than the padding of both band-pass
    filters, with samples spanning a positive time, gets numeric
    estimates, 0 spm from the two count-based methods. *)
Lemma get_spm_py_flat (pk_pos pk_neg : list Q -> list nat) (bf af bc ac : list Q)
  (dom : list Q -> Q) (df : series) (a b : Q) :
  (forall x k, In k (pk_pos x) -> In k (local_maxima x)) ->
  (forall x k, In k (pk_neg x) -> In k (local_maxima x)) ->
  (3 * ntaps bf af < length (get_time_period df a b))%nat ->
  (3 * ntaps bc ac < length (get_time_period df a b))%nat ->
  (forall r, In r (get_time_period df a b) -> snd r == 0) ->
  (zmin_list (map fst (get_time_period df a b)) < zmax_list (map fst (get_time_period df a b)))%Z ->
  exists p f q, get_spm_py pk_pos pk_neg None (Some (bf, af)) (Some (bc, ac)) dom df a b
                = Ok (mk_spm_py (PyNum p) (PyNum f) (PyNum q)) /\ p == 0 /\ q == 0.
Proof.
  intros Hpos Hneg Hf Hc Hz Hlt.
  set (frame := get_time_period df a b) in *.
  assert (Hv : forall y, In y (map snd frame) -> y == 0).
  { intros y Hy. apply in_map_iff in Hy as (r & <- & Hr). now apply Hz. }
  destruct (filtfilt_zero bf af (map snd frame)) as (y2 & E2 & L2 & Z2);
    [rewrite length_map; exact Hf | exact Hv |].
  destruct (filtfilt_zero bc ac (map snd frame)) as (y3 & E3 & L3 & Z3);
    [rewrite length_map; exact Hc | exact Hv |].
  destruct (to_steps_per_minute_py_zero frame Hlt) as (q & Eq & Hq).
  unfold get_spm_py. cbv zeta. fold frame. cbn [filter_series_py res_bind].
  rewrite E2. cbn [res_bind].
  destruct y2 as [|u2 y2]; [rewrite length_map in L2; simpl in L2; lia|].
  cbn [fft_dominant_freq_py res_bind filter_series_py]. rewrite E3. cbn [res_bind].
  destruct y3 as [|u3 y3]; [rewrite length_map in L3; simpl in L3; lia|].
  cbn [autocorr_py res_bind].
  rewrite (peak_steps_flat pk_pos pk_neg _ Hpos Hneg Hv).
  pose proof (autocorr_flat (u3 :: y3) Z3) as Hac. unfold autocorr_steps in Hac.
  rewrite Hac, Eq. exists q, (dom (u2 :: y2) * 60), q. split; [reflexivity|]. split; exact Hq.
Qed.

(** Without filters a non-empty window gets a result row. *)
Lemma get_spm_py_nofilter (pk_pos pk_neg : list Q -> list nat) (dom : list Q -> Q)
  (df : series) (a b : Q) :
  get_time_period df a b <> [] ->
  exists row, get_spm_py pk_pos pk_neg None None None dom df a b = Ok row.
Proof.
  intros Hne. unfold get_spm_py. cbv zeta.
  destruct (get_time_period df a b) as [|r rs]; [congruence|].
  cbn [map filter_series_py res_bind fft_dominant_freq_py autocorr_py].
  eexists. reflexivity.
Qed.

(** C3 (amended). [get_spm] has no WindowTooShort or NoSignal outcome.
    In the configuration of the windowing loop (peak detection
    unfiltered, FFT and autocorrelation through order-5 band-pass
    designs, 11 coefficients each): a window of at most 33 samples makes
    the whole call raise ValueError (from filtfilt); an all-zero window
    of more than 33 samples whose times span a positive duration gets
    numeric estimates, 0 spm from the peak-based and the autocorrelation
    methods (for any [find_peaks] keywords, which only remove local
    maxima); and with no filters every non-empty window gets a row. *)
Theorem get_spm_window_outcomes (pk_pos pk_neg : list Q -> list nat)
  (bf af bc ac : list Q) (dom : list Q -> Q) (df : series) (a b : Q) :
  ntaps bf af = 11%nat -> ntaps bc ac = 11%nat ->
  (forall x k, In k (pk_pos x) -> In k (local_maxima x)) ->
  (forall x k, In k (pk_neg x) -> In k (local_maxima x)) ->
  let frame := get_time_period df a b in
  let r := get_spm_py pk_pos pk_neg None (Some (bf, af)) (Some (bc, ac)) dom df a b in
  ((length frame <= 33)%nat -> r = Raise ValueError) /\
  ((33 < length frame)%nat -> (forall s, In s frame -> snd s == 0) ->
   (zmin_list (map fst frame) < zmax_list (map fst frame))%Z ->
   exists p f q, r = Ok (mk_spm_py (PyNum p) (PyNum f) (PyNum q)) /\ p == 0 /\ q == 0) /\
  (frame <> [] -> exists row, get_spm_py pk_pos pk_neg None None None dom df a b = Ok row).
Proof.
  intros Hf Hc Hpos Hneg frame r. split; [|split].
  - intros Hlen. apply get_spm_py_short.
    + intros x. now exists x.
    + rewrite Hf. exact Hlen.
  - intros Hlen Hz Hlt. apply get_spm_py_flat; try assumption; rewrite ?Hf, ?Hc; exact Hlen.
  - apply get_spm_py_nofilter.
Qed.

(** The window [[0, 10)] of [still_df] is all zero. *)
Lemma still_window_zero (s : Z * Q) : In s (get_time_period still_df 0 10) -> snd s == 0.
Proof.
  assert (B : forallb (fun r => Qeq_bool (snd r) 0) (get_time_period still_df 0 10) = true)
    by (vm_compute; reflexivity).
  intros Hs. apply Qeq_bool_iff. exact (proj1 (forallb_forall _ _) B s Hs).
Qed.

(** C3 (as stated, refuted). Neither case is rejected with its own
    outcome: in the loop's configuration the 5-sample window raises
    filtfilt's ValueError for every band-pass design; the all-zero 10 s
    window (1000 samples) gets the numbers 0 (peak-based and
    autocorrelation) and a numeric FFT estimate; and without filters the
    5-sample window gets the peak-based estimate 3000 spm. *)
Lemma flat_and_short_windows_no_rejection :
  (forall (bf af bc ac : list Q) (dom : list Q -> Q),
     ntaps bf af = 11%nat ->
     get_spm_py find_peaks find_peaks None (Some (bf, af)) (Some (bc, ac)) dom five_df 0 10
     = Raise ValueError) /\
  length (get_time_period still_df 0 10) = 1000%nat /\
  (forall (bf af bc ac : list Q) (dom : list Q -> Q),
     ntaps bf af = 11%nat -> ntaps bc ac = 11%nat ->
     exists p f q,
       get_spm_py find_peaks find_peaks None (Some (bf, af)) (Some (bc, ac)) dom still_df 0 10
       = Ok (mk_spm_py (PyNum p) (PyNum f) (PyNum q)) /\ p == 0 /\ q == 0) /\
  (forall dom : list Q -> Q,
     exists p f q,
       get_spm_py find_peaks find_peaks None None None dom five_df 0 10
       = Ok (mk_spm_py (PyNum p) (PyNum f) (PyNum q)) /\ p == 3000).
Proof.
  assert (Lstill : length (get_time_period still_df 0 10) = 1000%nat) by (vm_compute; reflexivity).
  split; [|split; [exact Lstill | split]].
  - intros bf af bc ac dom Hf. apply get_spm_py_short.
    + intros x. now exists x.
    + rewrite Hf. apply Nat.leb_le. vm_compute. reflexivity.
  - intros bf af bc ac dom Hf Hc. apply get_spm_py_flat.
    + intros x k H; exact H.
    + intros x k H; exact H.
    + rewrite Hf, Lstill. apply Nat.ltb_lt. reflexivity.
    + rewrite Hc, Lstill. apply Nat.ltb_lt. reflexivity.
    + exact still_window_zero.
    + vm_compute. reflexivity.
  - intros dom. do 3 eexists. split; [vm_compute; reflexivity|]. vm_compute. reflexivity.
Qed.

(** ** C8: forward-backward filtering of a test impulse *)




(** ** C6, C7: motion axis *)

Lemma qsum_map_ext {A} (f g : A -> Q) (l : list A) :
  (forall a, In a l -> f a == g a) -> qsum (map f l) == qsum (map g l).
Proof.
  induction l as [|a t IH]; intros H; simpl; [reflexivity|].
  rewrite (H a (or_introl eq_refl)), IH by (intros b Hb; apply H; now right).
  reflexivity.
Qed.

Lemma qsum_map_scale {A} (c : Q) (f : A -> Q) (l : list A) :
  qsum (map (fun a => c * f a) l) == c * qsum (map f l).
Proof. induction l as [|a t IH]; simpl; [ring|]. rewrite IH. ring. Qed.

Lemma qsum_map_zero {A} (f : A -> Q) (l : list A) :
  (forall a, In a l -> f a == 0) -> qsum (map f l) == 0.
Proof.
  induction l as [|a t IH]; intros H; simpl; [reflexivity|].
  rewrite (H a (or_introl eq_refl)), IH by (intros b Hb; apply H; now right).
  reflexivity.
Qed.

Lemma forall2_map_ext {A} (f g : A -> Q) (l : list A) :
  (forall a, In a l -> f a == g a) -> Forall2 Qeq (map f l) (map g l).
Proof.
  induction l as [|a t IH]; intros H; simpl; constructor.
  - apply H. now left.
  - apply IH. intros b Hb. apply H. now right.
Qed.

Lemma vmean_yz (xs : list vec3) (cy cz : Q) :
  xs <> [] -> (forall a, In a xs -> vy a == cy /\ vz a == cz) ->
  vy (vmean xs) == cy /\ vz (vmean xs) == cz.
Proof.
  intros Hne H. unfold vmean, vscale; simpl.
  rewrite fold_vadd_vy, fold_vadd_vz.
  assert (Hlen : forall f : vec3 -> Q, length (map f xs) = length xs)
    by (intros; apply length_map).
  split.
  - rewrite <- (Hlen vy). apply qmean_const.
    + destruct xs; simpl; congruence.
    + intros y Hy. apply in_map_iff in Hy as (v & <- & Hv). apply H, Hv.
  - rewrite <- (Hlen vz). apply qmean_const.
    + destruct xs; simpl; congruence.
    + intros y Hy. apply in_map_iff in Hy as (v & <- & Hv). apply H, Hv.
Qed.

Lemma vdot_x_only (a m w : vec3) (cy cz : Q) :
  vy a == cy -> vz a == cz -> vy m == cy -> vz m == cz ->
  vdot (vsub a m) w == (vx a - vx m) * vx w.
Proof.
  intros H1 H2 H3 H4. unfold vdot, vsub; simpl.
  rewrite H1, H2, H3, H4. ring.
Qed.

Lemma x_spread_nonneg (xs : list vec3) : 0 <= x_spread xs.
Proof.
  unfold x_spread; cbv zeta. generalize (vmean xs) as m.
  intros m. induction xs as [|a t IH]; simpl; [apply Qle_refl|].
  pose proof (sq_nonneg (vx a - vx m)). lra.
Qed.

Section XOnly.
(** Accelerations whose y and z coordinates are constant. *)
Variables (xs : list vec3) (cy cz : Q).
Hypothesis Hyz : forall a, In a xs -> vy a == cy /\ vz a == cz.
Hypothesis Hpos : 0 < x_spread xs.

Lemma x_only_nonempty : xs <> [].
Proof. intros E. rewrite E in Hpos. discriminate. Qed.

Lemma x_only_mean : vy (vmean xs) == cy /\ vz (vmean xs) == cz.
Proof. exact (vmean_yz xs cy cz x_only_nonempty Hyz). Qed.

Lemma x_only_dot (a w : vec3) :
  In a xs -> vdot (vsub a (vmean xs)) w == (vx a - vx (vmean xs)) * vx w.
Proof.
  intros Ha. destruct (Hyz a Ha) as [H1 H2]. destruct x_only_mean as [H3 H4].
  exact (vdot_x_only a (vmean xs) w cy cz H1 H2 H3 H4).
Qed.

Lemma x_only_variance (w : vec3) :
  projected_variance xs w == vx w * vx w * x_spread xs.
Proof.
  unfold projected_variance, x_spread; cbv zeta.
  transitivity (qsum (map (fun a => vx w * vx w *
                 ((vx a - vx (vmean xs)) * (vx a - vx (vmean xs)))) xs)).
  - apply qsum_map_ext. intros a Ha. rewrite (x_only_dot a w Ha). ring.
  - apply qsum_map_scale.
Qed.

Lemma x_only_principal (u : vec3) :
  principal_axis xs u <-> veq u e_x \/ veq u (vopp e_x).
Proof.
  split.
  - intros [Hu Hmax].
    assert (He : unit_vec e_x) by reflexivity.
    specialize (Hmax e_x He). rewrite !x_only_variance in Hmax.
    unfold e_x in Hmax; cbn [vx] in Hmax.
    unfold unit_vec, vdot in Hu.
    assert (Hx2 : 1 <= vx u * vx u).
    { apply (Qmult_le_r _ _ (x_spread xs) Hpos).
      setoid_replace (1 * x_spread xs) with (1 * 1 * x_spread xs) by ring.
      exact Hmax. }
    pose proof (sq_nonneg (vy u)). pose proof (sq_nonneg (vz u)).
    assert (Hy : vy u * vy u == 0) by lra.
    assert (Hz : vz u * vz u == 0) by lra.
    assert (Hx : (vx u - 1) * (vx u + 1) == 0).
    { setoid_replace ((vx u - 1) * (vx u + 1)) with (vx u * vx u - 1) by ring. lra. }
    assert (Hy0 : vy u == 0) by (apply Qmult_integral in Hy as [?|?]; assumption).
    assert (Hz0 : vz u == 0) by (apply Qmult_integral in Hz as [?|?]; assumption).
    apply Qmult_integral in Hx as [Hx|Hx]; [left|right];
      unfold veq, e_x, vopp; simpl; repeat split; lra.
  - intros Hu.
    assert (Hux : vx u * vx u == 1 /\ unit_vec u).
    { unfold unit_vec, vdot.
      destruct Hu as [(H1 & H2 & H3)|(H1 & H2 & H3)]; simpl in H1, H2, H3;
        rewrite H1, H2, H3; split; reflexivity. }
    destruct Hux as [Hux Hu1]. split; [exact Hu1|].
    intros w Hw. rewrite !x_only_variance, Hux.
    unfold unit_vec, vdot in Hw.
    pose proof (sq_nonneg (vy w)). pose proof (sq_nonneg (vz w)).
    apply Qmult_le_compat_r; [lra|]. apply x_spread_nonneg.
Qed.

Lemma x_only_pca0 (u : vec3) (s : Q) :
  vx u == s ->
  Forall2 Qeq (pca0 xs u) (map (fun a => s * (vx a - vx (vmean xs))) xs).
Proof.
  intros Hs. unfold pca0; cbv zeta. apply forall2_map_ext.
  intros a Ha. rewrite (x_only_dot a u Ha), Hs. ring.
Qed.
End XOnly.

(** Relabelling the columns changes neither the projections nor the
    principal axes. *)
Lemma vmean_map_vrot (xs : list vec3) : vmean (map vrot xs) = vrot (vmean xs).
Proof.
  unfold vmean. rewrite length_map.
  assert (E : fold_right vadd vzero (map vrot xs) = vrot (fold_right vadd vzero xs)).
  { induction xs as [|a t IH]; simpl; [reflexivity|]. rewrite IH. reflexivity. }
  rewrite E. reflexivity.
Qed.

Lemma variance_vrot (xs : list vec3) (w : vec3) :
  projected_variance (map vrot xs) (vrot w) == projected_variance xs w.
Proof.
  unfold projected_variance; cbv zeta. rewrite vmean_map_vrot, map_map.
  apply qsum_map_ext. intros a _. unfold vdot, vsub, vrot; simpl. ring.
Qed.

Lemma unit_vrot (w : vec3) : unit_vec (vrot w) <-> unit_vec w.
Proof.
  unfold unit_vec, vdot, vrot; simpl.
  setoid_replace (vy w * vy w + vz w * vz w + vx w * vx w)
    with (vx w * vx w + vy w * vy w + vz w * vz w) by ring.
  reflexivity.
Qed.

Lemma vrot3 (w : vec3) : vrot (vrot (vrot w)) = w.
Proof. destruct w; reflexivity. Qed.

Lemma principal_vrot (xs : list vec3) (u : vec3) :
  principal_axis xs u <-> principal_axis (map vrot xs) (vrot u).
Proof.
  split; intros [Hu Hmax]; split.
  - now apply unit_vrot.
  - intros w Hw. rewrite <- (vrot3 w), !variance_vrot.
    apply Hmax. now apply unit_vrot, unit_vrot.
  - exact (proj1 (unit_vrot u) Hu).
  - intros w Hw. rewrite <- (variance_vrot xs w), <- (variance_vrot xs u).
    apply Hmax. now apply unit_vrot.
Qed.

Lemma map_rot (k : nat) (xs : list vec3) :
  map (rot k) xs = match k with O => xs | 1%nat => map vrot xs | _ => map vrot (map vrot xs) end.
Proof.
  destruct k as [|[|k]].
  - exact (map_id xs).
  - reflexivity.
  - rewrite map_map. reflexivity.
Qed.

Lemma principal_rot (k : nat) (xs : list vec3) (u : vec3) :
  principal_axis xs u <-> principal_axis (map (rot k) xs) (rot k u).
Proof.
  rewrite map_rot. destruct k as [|[|k]]; simpl.
  - reflexivity.
  - apply principal_vrot.
  - rewrite (principal_vrot xs u). apply principal_vrot.
Qed.

Lemma spread_rot (k : nat) (xs : list vec3) :
  x_spread (map (rot k) xs) = axis_spread k xs.
Proof.
  assert (Hm : vmean (map (rot k) xs) = rot k (vmean xs)).
  { rewrite map_rot. destruct k as [|[|k]]; simpl.
    - reflexivity.
    - apply vmean_map_vrot.
    - rewrite !vmean_map_vrot. reflexivity. }
  unfold x_spread, axis_spread; cbv zeta. rewrite Hm, map_map.
  f_equal. apply map_ext. intros a. destruct k as [|[|k]]; reflexivity.
Qed.

Lemma veq_rot (k : nat) (u : vec3) :
  (veq (rot k u) e_x <-> veq u (axis k)) /\
  (veq (rot k u) (vopp e_x) <-> veq u (vopp (axis k))).
Proof. destruct k as [|[|k]]; unfold veq; simpl; split; tauto. Qed.

Lemma dot_axis (k : nat) (a m u : vec3) :
  (veq u (axis k) -> vdot (vsub a m) u == coord k a - coord k m) /\
  (veq u (vopp (axis k)) -> vdot (vsub a m) u == - (coord k a - coord k m)).
Proof.
  unfold veq, vdot, vsub.
  split; intros (H1 & H2 & H3); destruct k as [|[|k]]; simpl in *;
    rewrite H1, H2, H3; ring.
Qed.

(** C6 (as stated, refuted).  The accelerations (1,0,0) and (3,0,0) vary
    along the x axis only.  Both signs of that axis are principal axes,
    but the [pca0] column is the centred coordinate, [-1; 1] or [1; -1],
    neither the raw x values [1; 3] nor their negation. *)
Lemma pca_projection_is_centred :
  principal_axis x_only_xs e_x /\ principal_axis x_only_xs (vopp e_x) /\
  qlist_eqb (pca0 x_only_xs e_x) [-1; 1] = true /\
  qlist_eqb (pca0 x_only_xs (vopp e_x)) [1; -1] = true /\
  qlist_eqb (pca0 x_only_xs e_x) (map vx x_only_xs) = false /\
  qlist_eqb (pca0 x_only_xs (vopp e_x)) (map (fun a => - vx a) x_only_xs) = false.
Proof.
  assert (Hyz : forall a, In a x_only_xs -> vy a == 0 /\ vz a == 0).
  { intros a [<-|[<-|[]]]; split; reflexivity. }
  assert (Hpos : 0 < x_spread x_only_xs) by (vm_compute; reflexivity).
  split; [|split].
  - apply (x_only_principal x_only_xs 0 0 Hyz Hpos). left. unfold veq; simpl; repeat split; reflexivity.
  - apply (x_only_principal x_only_xs 0 0 Hyz Hpos). right. unfold veq; simpl; repeat split; reflexivity.
  - repeat split; vm_compute; reflexivity.
Qed.

(** C6 (amended).  If the accelerations vary along coordinate axis [k]
    only (every other coordinate is the same in all samples), the
    principal axes are exactly [axis k] and its opposite, and the [pca0]
    column is the centred coordinate [k], [a_k - mean(a_k)], for the
    first and its negation for the second. *)
Theorem motion_axis_single_axis (xs : list vec3) (k : nat) (u : vec3) :
  (k <= 2)%nat ->
  (forall a b j, In a xs -> In b xs -> (j <= 2)%nat -> j <> k ->
     coord j a == coord j b) ->
  0 < axis_spread k xs ->
  (principal_axis xs u <-> veq u (axis k) \/ veq u (vopp (axis k))) /\
  (veq u (axis k) ->
     Forall2 Qeq (pca0 xs u) (map (fun a => coord k a - coord k (vmean xs)) xs)) /\
  (veq u (vopp (axis k)) ->
     Forall2 Qeq (pca0 xs u) (map (fun a => - (coord k a - coord k (vmean xs))) xs)).
Proof.
  intros Hk Hc Hpos.
  assert (Hne : exists a0, In a0 xs).
  { destruct xs as [|a0 t]; [discriminate | exists a0; now left]. }
  destruct Hne as [a0 Ha0].
  assert (Hyz : forall a, In a (map (rot k) xs) ->
                  vy a == vy (rot k a0) /\ vz a == vz (rot k a0)).
  { intros a Ha. apply in_map_iff in Ha as (b & <- & Hb).
    destruct k as [|[|[|k]]]; [| | | lia]; simpl; split.
    - apply (Hc b a0 1%nat); auto; lia.
    - apply (Hc b a0 2%nat); auto; lia.
    - apply (Hc b a0 2%nat); auto; lia.
    - apply (Hc b a0 0%nat); auto; lia.
    - apply (Hc b a0 0%nat); auto; lia.
    - apply (Hc b a0 1%nat); auto; lia. }
  assert (Hys : 0 < x_spread (map (rot k) xs)) by (rewrite spread_rot; exact Hpos).
  split; [|split].
  - rewrite (principal_rot k xs u), (x_only_principal _ _ _ Hyz Hys (rot k u)).
    destruct (veq_rot k u) as [E1 E2]. rewrite E1, E2. reflexivity.
  - intros Hu. unfold pca0; cbv zeta. apply forall2_map_ext.
    intros a _. exact (proj1 (dot_axis k a (vmean xs) u) Hu).
  - intros Hu. unfold pca0; cbv zeta. apply forall2_map_ext.
    intros a _. exact (proj2 (dot_axis k a (vmean xs) u) Hu).
Qed.

Lemma vmean_zero (xs : list vec3) :
  (forall a, In a xs -> veq a vzero) -> veq (vmean xs) vzero.
Proof.
  intros H. unfold vmean, vscale, veq; simpl.
  rewrite fold_vadd_vx, fold_vadd_vy, fold_vadd_vz.
  assert (Hc : forall f : vec3 -> Q, (forall a, In a xs -> f a == 0) -> qsum (map f xs) == 0).
  { intros f Hf. rewrite (qsum_const _ 0); [ring|].
    intros y Hy. apply in_map_iff in Hy as (a & <- & Ha). now apply Hf. }
  repeat split; rewrite Hc; try ring; intros a Ha; apply H, Ha.
Qed.

Lemma flat_every_axis (xs : list vec3) (u : vec3) :
  (forall a, In a xs -> veq a vzero) -> unit_vec u ->
  principal_axis xs u /\ forall a, In a xs -> vdot (vsub a (vmean xs)) u == 0.
Proof.
  intros H Hu.
  assert (Hd : forall a v, In a xs -> vdot (vsub a (vmean xs)) v == 0).
  { intros a v Ha. destruct (H a Ha) as (H1 & H2 & H3).
    destruct (vmean_zero xs H) as (H4 & H5 & H6).
    unfold vdot, vsub; simpl in *. rewrite H1, H2, H3, H4, H5, H6. ring. }
  assert (Hv : forall v, projected_variance xs v == 0).
  { intros v. unfold projected_variance; cbv zeta. apply qsum_map_zero.
    intros a Ha. rewrite (Hd a v Ha). ring. }
  split; [split; [exact Hu|]|].
  - intros w _. rewrite (Hv w), (Hv u). apply Qle_refl.
  - intros a Ha. apply Hd, Ha.
Qed.

Lemma map_fst_combine {A B} (l1 : list A) (l2 : list B) :
  length l1 = length l2 -> map fst (combine l1 l2) = l1.
Proof.
  revert l2; induction l1 as [|x t IH]; intros [|y u] E; simpl in *;
    try discriminate; [reflexivity|]. rewrite IH; [reflexivity|lia].
Qed.

Lemma veqb_veq (u v : vec3) : veqb u v = true -> veq u v.
Proof.
  unfold veqb, veq. intros E. apply andb_prop in E as [E E3].
  apply andb_prop in E as [E1 E2]. apply Qeq_bool_iff in E1, E2, E3. auto.
Qed.

(** C7 (as stated, refuted).  For a device at rest, the corrected
    accelerations are all zero, every unit vector (e.g. [e_x] and [e_y])
    is a principal axis, and the preparation returns an all-zero [pca0]
    series with the recording's times, ready for windowing; no error is
    reported. *)
Lemma stationary_session_yields_series :
  principal_axis (map acc (gravity_correct still_rows)) e_x /\
  principal_axis (map acc (gravity_correct still_rows)) e_y /\
  map fst (prepare_session still_rows e_x) = map (fun i => Z.of_nat i * 10)%Z (seq 0 12) /\
  forallb (fun p => Qeq_bool (snd p) 0) (prepare_session still_rows e_x) = true.
Proof.
  assert (H : forall a, In a (map acc (gravity_correct still_rows)) -> veq a vzero).
  { assert (B : forallb (fun a => veqb a vzero)
                   (map acc (gravity_correct still_rows)) = true)
      by (vm_compute; reflexivity).
    intros a Ha. apply veqb_veq. exact (proj1 (forallb_forall _ _) B a Ha). }
  split; [|split; [|split]].
  - apply (flat_every_axis _ e_x H). reflexivity.
  - apply (flat_every_axis _ e_y H). reflexivity.
  - reflexivity.
  - vm_compute. reflexivity.
Qed.

(** C7 (amended).  Nothing rejects a degenerate motion axis: whenever the
    corrected accelerations are all zero (device at rest), every unit
    vector is a principal axis, and for whichever one the SVD returns the
    preparation yields a [pca0] series carrying the recording's times,
    every value 0, which the windowing loop then consumes. *)
Theorem stationary_session_not_rejected (df : list Row) (u : vec3) :
  (forall r, In r (gravity_correct df) -> veq (acc r) vzero) ->
  unit_vec u ->
  principal_axis (map acc (gravity_correct df)) u /\
  map fst (prepare_session df u) = map time df /\
  (forall p, In p (prepare_session df u) -> snd p == 0).
Proof.
  intros H Hu.
  assert (H' : forall a, In a (map acc (gravity_correct df)) -> veq a vzero).
  { intros a Ha. apply in_map_iff in Ha as (r & <- & Hr). now apply H. }
  destruct (flat_every_axis _ u H' Hu) as [Hp Hd].
  split; [exact Hp|split].
  - unfold prepare_session; cbv zeta. rewrite map_fst_combine.
    + unfold gravity_correct. rewrite map_map. reflexivity.
    + unfold pca0. rewrite !length_map. reflexivity.
  - intros [t q] Hin. apply in_combine_r in Hin.
    unfold pca0 in Hin; cbv zeta in Hin.
    apply in_map_iff in Hin as (a & <- & Ha). simpl. now apply Hd.
Qed.

(** ** Instances of the theorems with hypotheses *)

Lemma peak_detection_estimator_witness :
  (zmin_list (map fst (get_time_period walk_df 0 10))
   < zmax_list (map fst (get_time_period walk_df 0 10)))%Z /\
  0 < window_dt (get_time_period walk_df 0 10) /\
  (100 * (1 + 10) <= 1200)%nat /\
  window_dt (get_time_period (sampled strike 1200) (inject_Z (Z.of_nat 1)) (inject_Z (Z.of_nat 1) + 10))
  == 999 # 100.
Proof.
  assert (H : (zmin_list (map fst (get_time_period walk_df 0 10))
               < zmax_list (map fst (get_time_period walk_df 0 10)))%Z) by (vm_compute; reflexivity).
  assert (Hn : (100 * (1 + 10) <= 1200)%nat) by (apply Nat.leb_le; reflexivity).
  pose proof (peak_detection_estimator find_peaks find_peaks (fun d => d) walk_df 0 10 H)
    as (_ & Hdt & _ & _ & _ & Hw).
  exact (conj H (conj Hdt (conj Hn (proj1 (proj2 (Hw strike 1200%nat 1%nat Hn)))))).
Defined.

Lemma gravity_calibration_stationary_witness :
  (calibration_span <= length still_rows)%nat /\
  (forall r, In r (firstn calibration_span still_rows) -> veq (acc r) (mkvec 0 0 1)) /\
  veq (gravity_vector still_rows) (mkvec 0 0 1).
Proof.
  assert (H1 : (calibration_span <= length still_rows)%nat)
    by (vm_compute; lia).
  assert (H2 : forall r, In r (firstn calibration_span still_rows) ->
                 veq (acc r) (mkvec 0 0 1)).
  { assert (B : forallb (fun r => veqb (acc r) (mkvec 0 0 1))
                  (firstn calibration_span still_rows) = true)
      by (vm_compute; reflexivity).
    intros r Hr. apply veqb_veq. exact (proj1 (forallb_forall _ _) B r Hr). }
  split; [exact H1|split; [exact H2|]].
  exact (proj1 (proj2 (proj2 (gravity_calibration_stationary still_rows H1 H2)))).
Defined.

Lemma ema_smoothing_recurrence_witness :
  let rows := [ {| peak_detection_spm := 100; fft_spm := 120; autocorrelation_spm := 96 |};
                {| peak_detection_spm := 110; fft_spm := 114; autocorrelation_spm := 104 |} ] in
  ("peak_detection_spm" = "peak_detection_spm" \/
   "peak_detection_spm" = "autocorrelation_spm")%string /\
  exists raw sm,
    column "peak_detection_spm" (acceleration_spm_df rows) = Some raw /\
    smoothed_column "peak_detection_spm" rows = Some sm /\
    length sm = length raw.
Proof.
  intros rows.
  assert (H : ("peak_detection_spm" = "peak_detection_spm" \/
               "peak_detection_spm" = "autocorrelation_spm")%string)
    by (left; reflexivity).
  split; [exact H|].
  destruct (ema_smoothing_recurrence rows _ H) as (raw & sm & A & B & C & _).
  exists raw, sm. split; [exact A|split; [exact B|exact C]].
Defined.

Lemma get_spm_window_outcomes_witness :
  let frame := get_time_period still_df 0 10 in
  let r := get_spm_py find_peaks find_peaks None (Some (still_design, still_design))
             (Some (still_design, still_design)) (fun _ => 0) still_df 0 10 in
  ((length frame <= 33)%nat -> r = Raise ValueError) /\
  ((33 < length frame)%nat -> (forall s, In s frame -> snd s == 0) ->
   (zmin_list (map fst frame) < zmax_list (map fst frame))%Z ->
   exists p f q, r = Ok (mk_spm_py (PyNum p) (PyNum f) (PyNum q)) /\ p == 0 /\ q == 0) /\
  (frame <> [] -> exists row, get_spm_py find_peaks find_peaks None None None (fun _ => 0) still_df 0 10 = Ok row).
Proof.
  exact (get_spm_window_outcomes find_peaks find_peaks still_design still_design
           still_design still_design (fun _ => 0) still_df 0 10
           eq_refl eq_refl (fun x k H => H) (fun x k H => H)).
Defined.

Lemma motion_axis_single_axis_witness :
  (0 <= 2)%nat /\ 0 < axis_spread 0 x_only_xs /\
  (principal_axis x_only_xs e_x <-> veq e_x (axis 0) \/ veq e_x (vopp (axis 0))).
Proof.
  assert (Hk : (0 <= 2)%nat) by lia.
  assert (Hc : forall a b j, In a x_only_xs -> In b x_only_xs -> (j <= 2)%nat ->
                 j <> 0%nat -> coord j a == coord j b).
  { intros a b j Ha Hb Hj Hjk.
    destruct Ha as [<-|[<-|[]]], Hb as [<-|[<-|[]]];
      destruct j as [|[|[|j]]]; try lia; reflexivity. }
  assert (Hpos : 0 < axis_spread 0 x_only_xs) by (vm_compute; reflexivity).
  split; [exact Hk|split; [exact Hpos|]].
  exact (proj1 (motion_axis_single_axis x_only_xs 0 e_x Hk Hc Hpos)).
Defined.

Lemma stationary_session_not_rejected_witness :
  (forall r, In r (gravity_correct still_rows) -> veq (acc r) vzero) /\
  unit_vec e_x /\
  map fst (prepare_session still_rows e_x) = map time still_rows.
Proof.
  assert (H : forall r, In r (gravity_correct still_rows) -> veq (acc r) vzero).
  { assert (B : forallb (fun r => veqb (acc r) vzero) (gravity_correct still_rows) = true)
      by (vm_compute; reflexivity).
    intros r Hr. apply veqb_veq. exact (proj1 (forallb_forall _ _) B r Hr). }
  assert (Hu : unit_vec e_x) by reflexivity.
  split; [exact H|split; [exact Hu|]].
  exact (proj1 (proj2 (stationary_session_not_rejected still_rows e_x H Hu))).
Defined.

(** * Further properties of the notebook's code *)

(** ** Scaling a signal *)

Lemma scaled_map (c : Q) (x : list Q) : scaled c (map (Qmult c) x) x.
Proof.
  induction x as [|q t IH]; simpl; constructor; [reflexivity | exact IH].
Qed.

Lemma scaled_length (c : Q) (y x : list Q) : scaled c y x -> length y = length x.
Proof. apply Forall2_length. Qed.

Lemma scaled_at (c : Q) (y x : list Q) (i : nat) :
  scaled c y x -> at_ y i == c * at_ x i.
Proof.
  intros H. revert i. unfold at_.
  induction H as [|p q y' x' Hpq _ IH]; intros [|i]; simpl; [ring | ring | exact Hpq | apply IH].
Qed.

Lemma scaled_skipn (c : Q) (y x : list Q) (k : nat) :
  scaled c y x -> scaled c (skipn k y) (skipn k x).
Proof.
  intros H. revert k.
  induction H as [|p q y' x' Hpq H' IH]; intros [|k]; simpl;
    [constructor | constructor | constructor; assumption | apply IH].
Qed.

Lemma scaled_firstn (c : Q) (y x : list Q) (k : nat) :
  scaled c y x -> scaled c (firstn k y) (firstn k x).
Proof.
  intros H. revert k.
  induction H as [|p q y' x' Hpq H' IH]; intros [|k]; simpl;
    [constructor | constructor | constructor | constructor; [exact Hpq | apply IH]].
Qed.

Lemma dot_scaled (c d : Q) (y x y' x' : list Q) :
  scaled c y x -> scaled d y' x' -> dot y y' == c * d * dot x x'.
Proof.
  intros H. revert y' x'.
  induction H as [|p q y x Hpq _ IH]; intros y' x' H'.
  - unfold dot; simpl. ring.
  - destruct H' as [|p' q' y' x' Hpq' H']; [unfold dot; simpl; ring|].
    rewrite !dot_cons, (IH _ _ H'), Hpq, Hpq'. ring.
Qed.

Lemma correlate_full_scaled (c : Q) (y x : list Q) :
  scaled c y x -> scaled (c * c) (correlate_full y y) (correlate_full x x).
Proof.
  intros H. unfold correlate_full. rewrite (scaled_length _ _ _ H).
  induction (seq 0 (length x + length x - 1)) as [|j t IH]; simpl; constructor; [|exact IH].
  unfold correlate_at. destruct (0 <=? _)%Z; apply dot_scaled;
    try apply scaled_skipn; exact H.
Qed.

Lemma autocorr_scaled (c : Q) (y x : list Q) :
  scaled c y x -> scaled (c * c) (autocorr y) (autocorr x).
Proof.
  intros H. unfold autocorr; cbv zeta.
  pose proof (correlate_full_scaled c y x H) as Hc.
  rewrite (scaled_length _ _ _ Hc). apply scaled_firstn, Hc.
Qed.

(** Comparisons of two values are those of their images under a positive
    scaling. *)
Lemma eqb_scaled (c a b a' b' : Q) :
  0 < c -> a' == c * a -> b' == c * b -> Qeq_bool a' b' = Qeq_bool a b.
Proof.
  intros Hc Ha Hb. apply eq_true_iff_eq. rewrite !Qeq_bool_iff, Ha, Hb.
  apply Qmult_inj_l. intros E. apply (Qlt_not_eq 0 c Hc). now symmetry.
Qed.

Lemma ltb_scaled (c a b a' b' : Q) :
  0 < c -> a' == c * a -> b' == c * b -> Qlt_bool a' b' = Qlt_bool a b.
Proof.
  intros Hc Ha Hb. unfold Qlt_bool. f_equal. apply eq_true_iff_eq.
  rewrite !Qle_bool_iff, Ha, Hb. apply Qmult_le_l, Hc.
Qed.

Lemma ahead_scaled (c : Q) (y x : list Q) (v w : Q) :
  0 < c -> (forall i, at_ y i == c * at_ x i) -> w == c * v ->
  forall j n, ahead y w j n = ahead x v j n.
Proof.
  intros Hc Hyx Hw j n. revert j. induction n as [|n IH]; intros j; simpl; [reflexivity|].
  rewrite (eqb_scaled c (at_ x j) v _ _ Hc (Hyx j) Hw).
  destruct (Qeq_bool (at_ x j) v); [apply IH | reflexivity].
Qed.

Lemma lm_loop_scaled (c : Q) (y x : list Q) :
  0 < c -> (forall i, at_ y i == c * at_ x i) ->
  forall imax fuel i, lm_loop y imax i fuel = lm_loop x imax i fuel.
Proof.
  intros Hc Hyx imax fuel. induction fuel as [|fuel IH]; intros i; simpl; [reflexivity|].
  destruct (i <? imax); [|reflexivity].
  rewrite (ltb_scaled c _ _ _ _ Hc (Hyx (i - 1)%nat) (Hyx i)).
  rewrite (ahead_scaled c y x (at_ x i) (at_ y i) Hc Hyx (Hyx i)).
  set (ia := ahead x (at_ x i) (S i) (imax - S i)).
  rewrite (ltb_scaled c _ _ _ _ Hc (Hyx ia) (Hyx i)).
  destruct (Qlt_bool (at_ x (i - 1)) (at_ x i)); [destruct (Qlt_bool (at_ x ia) (at_ x i))|];
    rewrite ?IH; reflexivity.
Qed.

Lemma local_maxima_scaled (c : Q) (y x : list Q) :
  0 < c -> scaled c y x -> local_maxima y = local_maxima x.
Proof.
  intros Hc H. unfold local_maxima. rewrite (scaled_length _ _ _ H).
  apply (lm_loop_scaled c); [exact Hc|]. intros i. apply scaled_at, H.
Qed.

Lemma square_pos (c : Q) : ~ c == 0 -> 0 < c * c.
Proof.
  intros Hc. destruct (Qle_lt_or_eq 0 (c * c) (sq_nonneg c)) as [H|H]; [exact H|].
  exfalso. symmetry in H. apply Qmult_integral in H as [H|H]; contradiction.
Qed.

(** Two series with the same times whose values are scaled by [c] have
    windows with the same times and scaled values. *)
Lemma frames_scaled (c : Q) (df' df : series) (a b : Q) :
  map fst df' = map fst df -> scaled c (map snd df') (map snd df) ->
  map fst (get_time_period df' a b) = map fst (get_time_period df a b) /\
  scaled c (map snd (get_time_period df' a b)) (map snd (get_time_period df a b)).
Proof.
  unfold get_time_period. revert df.
  induction df' as [|[t' q'] r' IH]; intros [|[t q] r] Hf Hs; simpl in *;
    try discriminate; [split; constructor|].
  injection Hf as -> Hf. inversion Hs as [|? ? ? ? Hq Hr]; subst.
  destruct (IH r Hf Hr) as [A B].
  destruct (Qle_bool (a * 1000) (inject_Z t) && Qlt_bool (inject_Z t) (b * 1000));
    simpl; [split; [f_equal; exact A | constructor; assumption] | split; assumption].
Qed.

Lemma autocorrelation_method_scaled (c : Q) (f_ac : list Q -> list Q)
  (df' df : series) (a b : Q) :
  ~ c == 0 -> (forall y d, scaled c y d -> scaled c (f_ac y) (f_ac d)) ->
  map fst df' = map fst df -> scaled c (map snd df') (map snd df) ->
  autocorrelation_method_spm f_ac df' a b = autocorrelation_method_spm f_ac df a b.
Proof.
  intros Hc Hf Ht Hv. destruct (frames_scaled c df' df a b Ht Hv) as [A B].
  assert (E : autocorr_steps (f_ac (map snd (get_time_period df' a b)))
              = autocorr_steps (f_ac (map snd (get_time_period df a b)))).
  { unfold autocorr_steps, find_peaks. f_equal.
    apply (local_maxima_scaled (c * c)); [apply square_pos, Hc|].
    apply autocorr_scaled, Hf, B. }
  unfold autocorrelation_method_spm, window_dt; cbv zeta. rewrite E, A. reflexivity.
Qed.

Lemma series_scaled_map (c : Q) (df : series) :
  map fst (map (fun p => (fst p, c * snd p)) df) = map fst df /\
  scaled c (map snd (map (fun p => (fst p, c * snd p)) df)) (map snd df).
Proof.
  rewrite !map_map. split; [reflexivity|].
  induction df as [|p t IH]; simpl; constructor; [reflexivity | exact IH].
Qed.

Lemma map_snd_combine {A B} (l1 : list A) (l2 : list B) :
  length l1 = length l2 -> map snd (combine l1 l2) = l2.
Proof.
  revert l2; induction l1 as [|x t IH]; intros [|y u] E; simpl in *;
    try discriminate; [reflexivity|]. rewrite IH; [reflexivity|lia].
Qed.

Lemma pca0_vopp (xs : list vec3) (u : vec3) :
  scaled (-1) (pca0 xs (vopp u)) (pca0 xs u).
Proof.
  unfold pca0; cbv zeta. generalize (vmean xs) as m. intros m.
  induction xs as [|a t IH]; simpl; constructor; [|exact IH].
  unfold vdot, vopp; simpl. ring.
Qed.

Lemma prepare_session_vopp (df : list Row) (u : vec3) :
  map fst (prepare_session df (vopp u)) = map fst (prepare_session df u) /\
  scaled (-1) (map snd (prepare_session df (vopp u))) (map snd (prepare_session df u)).
Proof.
  unfold prepare_session; cbv zeta.
  assert (L : forall w, length (map time (gravity_correct df))
                        = length (pca0 (map acc (gravity_correct df)) w))
    by (intros w; unfold pca0; rewrite !length_map; reflexivity).
  rewrite !map_fst_combine, !map_snd_combine by apply L.
  split; [reflexivity | apply pca0_vopp].
Qed.

Lemma peak_steps_negated (pk : list Q -> list nat) (y d : list Q) :
  (forall l1 l2, Forall2 Qeq l1 l2 -> pk l1 = pk l2) ->
  scaled (-1) y d -> peak_detection_steps pk pk y = peak_detection_steps pk pk d.
Proof.
  intros Hpk H. unfold peak_detection_steps.
  rewrite (Hpk y (map Qopp d)), (Hpk (map Qopp y) d).
  - apply Nat.max_comm.
  - clear Hpk. induction H as [|p q y d Hpq _ IH]; simpl; constructor; [|exact IH].
    rewrite Hpq. ring.
  - clear Hpk. induction H as [|p q y d Hpq _ IH]; simpl; constructor; [|exact IH].
    rewrite Hpq. ring.
Qed.

Lemma peak_method_negated (pk : list Q -> list nat) (df' df : series) (a b : Q) :
  (forall l1 l2, Forall2 Qeq l1 l2 -> pk l1 = pk l2) ->
  map fst df' = map fst df -> scaled (-1) (map snd df') (map snd df) ->
  peak_method_spm pk pk (fun d => d) df' a b = peak_method_spm pk pk (fun d => d) df a b.
Proof.
  intros Hpk Ht Hv. destruct (frames_scaled (-1) df' df a b Ht Hv) as [A B].
  unfold peak_method_spm, window_dt; cbv zeta.
  rewrite (peak_steps_negated pk _ _ Hpk B), A. reflexivity.
Qed.

(** ** Shape of the output of the local-maxima loop *)

Lemma ahead_eq (x : list Q) (v : Q) (n : nat) :
  forall j k, (j <= k < ahead x v j n)%nat -> at_ x k == v.
Proof.
  induction n as [|n IH]; intros j k Hk; simpl in Hk; [lia|].
  destruct (Qeq_bool (at_ x j) v) eqn:E; [|lia].
  destruct (Nat.eq_dec k j) as [->|Hne]; [apply Qeq_bool_iff, E|].
  apply (IH (S j)). lia.
Qed.

Lemma Qlt_bool_true (a b : Q) : Qlt_bool a b = true -> a < b.
Proof.
  unfold Qlt_bool. intros H. apply Qnot_le_lt. intros Hle.
  apply Qle_bool_iff in Hle. rewrite Hle in H. discriminate.
Qed.

Lemma lm_loop_ge (x : list Q) (imax : nat) :
  forall f i k, In k (lm_loop x imax i f) -> (i <= k)%nat.
Proof.
  induction f as [|f IH]; intros i k Hk; cbn [lm_loop] in Hk; [contradiction|].
  destruct (i <? imax); [|contradiction].
  pose proof (ahead_ge x (at_ x i) (S i) (imax - S i)).
  destruct (Qlt_bool (at_ x (i - 1)%nat) (at_ x i)); [|specialize (IH _ _ Hk); lia].
  destruct (Qlt_bool _ _); [|specialize (IH _ _ Hk); lia].
  destruct Hk as [<- | Hk]; [|specialize (IH _ _ Hk); lia].
  apply Nat.div_le_lower_bound; lia.
Qed.

Lemma lm_loop_sorted (x : list Q) (imax : nat) :
  forall f i, StronglySorted lt (lm_loop x imax i f).
Proof.
  induction f as [|f IH]; intros i; cbn [lm_loop]; [constructor|].
  destruct (i <? imax); [|constructor].
  pose proof (ahead_ge x (at_ x i) (S i) (imax - S i)).
  destruct (Qlt_bool (at_ x (i - 1)%nat) (at_ x i)); [|apply IH].
  destruct (Qlt_bool _ _); [|apply IH].
  constructor; [apply IH|]. apply Forall_forall. intros k Hk.
  apply lm_loop_ge in Hk.
  assert (((i + (ahead x (at_ x i) (S i) (imax - S i) - 1)) / 2
           < S (ahead x (at_ x i) (S i) (imax - S i)))%nat)
    by (apply Nat.Div0.div_lt_upper_bound; lia).
  lia.
Qed.

Lemma lm_loop_count (x : list Q) (imax : nat) :
  forall f i, (2 * length (lm_loop x imax i f) <= imax + 1 - i)%nat.
Proof.
  induction f as [|f IH]; intros i; cbn [lm_loop]; [simpl; lia|].
  destruct (i <? imax) eqn:Hi; [|simpl; lia]. apply Nat.ltb_lt in Hi.
  pose proof (ahead_ge x (at_ x i) (S i) (imax - S i)).
  pose proof (ahead_le x (at_ x i) (S i) (imax - S i)).
  destruct (Qlt_bool (at_ x (i - 1)%nat) (at_ x i)); [|specialize (IH (S i)); lia].
  destruct (Qlt_bool _ _); [|specialize (IH (S i)); lia].
  cbn [length]. specialize (IH (S (ahead x (at_ x i) (S i) (imax - S i)))). lia.
Qed.

Lemma lm_loop_sound (x : list Q) (imax : nat) :
  forall f i k, (1 <= i)%nat -> In k (lm_loop x imax i f) ->
  exists l r, (1 <= l <= r)%nat /\ (r < imax)%nat /\ k = ((l + r) / 2)%nat /\
    at_ x (l - 1) < at_ x l /\
    (forall j, (l <= j <= r)%nat -> at_ x j == at_ x l) /\
    at_ x (S r) < at_ x l.
Proof.
  induction f as [|f IH]; intros i k Hi1 Hk; cbn [lm_loop] in Hk; [contradiction|].
  destruct (i <? imax) eqn:Hi; [|contradiction]. apply Nat.ltb_lt in Hi.
  pose proof (ahead_ge x (at_ x i) (S i) (imax - S i)).
  pose proof (ahead_le x (at_ x i) (S i) (imax - S i)).
  pose proof (ahead_eq x (at_ x i) (imax - S i) (S i)).
  set (ia := ahead x (at_ x i) (S i) (imax - S i)) in *.
  destruct (Qlt_bool (at_ x (i - 1)%nat) (at_ x i)) eqn:E1; [|apply (IH (S i)); [lia|exact Hk]].
  destruct (Qlt_bool (at_ x ia) (at_ x i)) eqn:E2; [|apply (IH (S i)); [lia|exact Hk]].
  destruct Hk as [<- | Hk]; [|apply (IH (S ia)); [lia|exact Hk]].
  exists i, (ia - 1)%nat. split; [lia|]. split; [lia|]. split; [reflexivity|].
  split; [now apply Qlt_bool_true|]. split.
  - intros j Hj. destruct (Nat.eq_dec j i) as [->|Hne]; [reflexivity|].
    apply H1. lia.
  - replace (S (ia - 1)) with ia by lia. now apply Qlt_bool_true.
Qed.

(** ** The full autocorrelation *)

Lemma dot_comm (a v : list Q) : dot a v == dot v a.
Proof.
  revert v; induction a as [|p t IH]; intros [|q u].
  - reflexivity.
  - reflexivity.
  - reflexivity.
  - rewrite !dot_cons, IH. ring.
Qed.

Lemma correlate_at_sym (x : list Q) (k : Z) :
  correlate_at x x (- k) == correlate_at x x k.
Proof.
  unfold correlate_at. destruct k as [|p|p]; simpl; [reflexivity | apply dot_comm | apply dot_comm].
Qed.

Lemma autocorr_length (x : list Q) : length (autocorr x) = (length x - 1)%nat.
Proof.
  rewrite autocorr_firstn, length_firstn, correlate_full_length. lia.
Qed.

(** ** Exponential moving average *)

Lemma ewm_from_bounds (alpha p lo hi : Q) (xs : list Q) :
  0 <= alpha <= 1 -> lo <= p <= hi -> (forall x, In x xs -> lo <= x <= hi) ->
  forall y, In y (ewm_from alpha p xs) -> lo <= y <= hi.
Proof.
  intros Ha; revert p; induction xs as [|x t IH]; intros p Hp Hxs y Hy;
    simpl in Hy; [contradiction|].
  assert (Hq : lo <= (1 - alpha) * p + alpha * x <= hi).
  { pose proof (Hxs x (or_introl eq_refl)). split; nra. }
  destruct Hy as [Hy | Hy]; [subst y; exact Hq|].
  exact (IH _ Hq (fun z Hz => Hxs z (or_intror Hz)) y Hy).
Qed.

Lemma ewm_mean_bounds (alpha lo hi : Q) (xs : list Q) :
  0 <= alpha <= 1 -> (forall x, In x xs -> lo <= x <= hi) ->
  forall y, In y (ewm_mean alpha xs) -> lo <= y <= hi.
Proof.
  intros Ha Hxs y Hy; destruct xs as [|x t]; simpl in Hy; [contradiction|].
  destruct Hy as [<- | Hy]; [exact (Hxs x (or_introl eq_refl))|].
  exact (ewm_from_bounds alpha x lo hi t Ha (Hxs x (or_introl eq_refl))
           (fun z Hz => Hxs z (or_intror Hz)) y Hy).
Qed.

(** ** Means, the gravity correction and the projection *)

Lemma length_nonzero {A} (l : list A) :
  l <> [] -> ~ inject_Z (Z.of_nat (length l)) == 0.
Proof. destruct l as [|x t]; [congruence|]. intros _. unfold Qeq; simpl. lia. Qed.

Lemma qsum_affine {A} (s c : Q) (f : A -> Q) (l : list A) :
  qsum (map (fun a => s * (f a - c)) l)
  == s * (qsum (map f l) - inject_Z (Z.of_nat (length l)) * c).
Proof.
  induction l as [|a t IH]; cbn [map qsum length]; [ring|].
  rewrite IH, Nat2Z.inj_succ, <- Z.add_1_l, inject_Z_plus. ring.
Qed.

Lemma mean_times_length (xs : list vec3) :
  xs <> [] ->
  inject_Z (Z.of_nat (length xs)) * vx (vmean xs) == qsum (map vx xs) /\
  inject_Z (Z.of_nat (length xs)) * vy (vmean xs) == qsum (map vy xs) /\
  inject_Z (Z.of_nat (length xs)) * vz (vmean xs) == qsum (map vz xs).
Proof.
  intros Hne. pose proof (length_nonzero xs Hne) as Hn.
  unfold vmean, vscale; simpl. rewrite fold_vadd_vx, fold_vadd_vy, fold_vadd_vz.
  repeat split; field; exact Hn.
Qed.

(** The mean of [s * (a - g)] over the samples is [s * (mean a - g)]. *)
Lemma vmean_affine (s : Q) (g : vec3) (xs : list vec3) :
  xs <> [] ->
  veq (vmean (map (fun a => vscale s (vsub a g)) xs)) (vscale s (vsub (vmean xs) g)).
Proof.
  intros Hne. pose proof (length_nonzero xs Hne) as Hn.
  unfold vmean at 1, vscale at 1, veq; cbn [vx vy vz].
  rewrite fold_vadd_vx, fold_vadd_vy, fold_vadd_vz, !map_map, length_map. cbn [vx vy vz vscale vsub].
  rewrite !qsum_affine. destruct (mean_times_length xs Hne) as (H1 & H2 & H3).
  unfold vscale, vsub; cbn [vx vy vz].
  rewrite <- H1, <- H2, <- H3. repeat split; field; exact Hn.
Qed.

Lemma qsum_pca0 (xs : list vec3) (m u : vec3) :
  qsum (map (fun a => vdot (vsub a m) u) xs)
  == vx u * (qsum (map vx xs) - inject_Z (Z.of_nat (length xs)) * vx m)
     + vy u * (qsum (map vy xs) - inject_Z (Z.of_nat (length xs)) * vy m)
     + vz u * (qsum (map vz xs) - inject_Z (Z.of_nat (length xs)) * vz m).
Proof.
  induction xs as [|a t IH]; cbn [map qsum length]; [ring|].
  rewrite IH, Nat2Z.inj_succ, <- Z.add_1_l, inject_Z_plus. unfold vdot, vsub; simpl. ring.
Qed.

Lemma dot_affine (s : Q) (g a m' m w : vec3) :
  veq m' (vscale s (vsub m g)) ->
  vdot (vsub (vscale s (vsub a g)) m') w == s * vdot (vsub a m) w.
Proof.
  intros (H1 & H2 & H3). unfold vdot, vsub, vscale in *; simpl in *.
  rewrite H1, H2, H3. ring.
Qed.

Lemma scaled_map_ext {A} (s : Q) (f g : A -> Q) (l : list A) :
  (forall a, In a l -> f a == s * g a) -> scaled s (map f l) (map g l).
Proof.
  induction l as [|a t IH]; intros H; simpl; constructor.
  - apply H. now left.
  - apply IH. intros b Hb. apply H. now right.
Qed.

Lemma pca0_affine (s : Q) (g : vec3) (xs : list vec3) (u : vec3) :
  scaled s (pca0 (map (fun a => vscale s (vsub a g)) xs) u) (pca0 xs u).
Proof.
  destruct xs as [|a0 t] eqn:E; [constructor|]. rewrite <- E.
  assert (Hne : xs <> []) by (rewrite E; discriminate). clear E.
  pose proof (vmean_affine s g xs Hne) as Hm.
  unfold pca0; cbv zeta. rewrite map_map. apply scaled_map_ext.
  intros a _. apply dot_affine, Hm.
Qed.

Lemma variance_affine (s : Q) (g : vec3) (xs : list vec3) (w : vec3) :
  projected_variance (map (fun a => vscale s (vsub a g)) xs) w
  == s * s * projected_variance xs w.
Proof.
  destruct xs as [|a0 t] eqn:E; [unfold projected_variance; simpl; ring|]. rewrite <- E.
  assert (Hne : xs <> []) by (rewrite E; discriminate). clear E.
  pose proof (vmean_affine s g xs Hne) as Hm.
  unfold projected_variance; cbv zeta. rewrite map_map, <- qsum_map_scale.
  apply qsum_map_ext. intros a _. rewrite (dot_affine s g a _ (vmean xs) w Hm). ring.
Qed.

(** ** Sample times, windows and window starts *)

Lemma fold_min_shift (ts : list Z) (t c : Z) :
  fold_left Z.min (map (fun s => s - c)%Z ts) (t - c)%Z = (fold_left Z.min ts t - c)%Z.
Proof.
  revert t; induction ts as [|s ts IH]; intros t; simpl; [reflexivity|].
  rewrite Z.sub_min_distr_r. apply IH.
Qed.

Lemma fold_max_shift (ts : list Z) (t c : Z) :
  fold_left Z.max (map (fun s => s - c)%Z ts) (t - c)%Z = (fold_left Z.max ts t - c)%Z.
Proof.
  revert t; induction ts as [|s ts IH]; intros t; simpl; [reflexivity|].
  rewrite Z.sub_max_distr_r. apply IH.
Qed.

Lemma Qlt_bool_iff (a b : Q) : Qlt_bool a b = true <-> a < b.
Proof.
  split; [apply Qlt_bool_true|]. intros H. unfold Qlt_bool.
  destruct (Qle_bool b a) eqn:E; [|reflexivity].
  apply Qle_bool_iff in E. exfalso. apply (Qlt_not_le a b H E).
Qed.

Lemma window_pred_iff (a b : Q) (t : Z) :
  Qle_bool (a * 1000) (inject_Z t) && Qlt_bool (inject_Z t) (b * 1000) = true
  <-> a * 1000 <= inject_Z t /\ inject_Z t < b * 1000.
Proof. rewrite andb_true_iff, Qle_bool_iff, Qlt_bool_iff. reflexivity. Qed.

Lemma window_times (df : series) (a b : Q) (t : Z) :
  In t (map fst (get_time_period df a b)) -> a * 1000 <= inject_Z t /\ inject_Z t < b * 1000.
Proof.
  intros Ht. apply in_map_iff in Ht as ([t' q] & <- & Hr).
  unfold get_time_period in Hr. apply filter_In in Hr as [_ Hr].
  apply window_pred_iff, Hr.
Qed.

Lemma ceiling_gt (k : Z) (q : Q) : (k < Qceiling q)%Z <-> inject_Z k < q.
Proof.
  split; intros H.
  - apply Qnot_le_lt. intros Hq. apply Qceiling_resp_le in Hq.
    rewrite Qceiling_Z in Hq. lia.
  - rewrite Zlt_Qlt. apply (Qlt_le_trans _ q); [exact H | apply Qle_ceiling].
Qed.

Lemma nth_firstn_lt {A} (l : list A) (k j : nat) (d : A) :
  (j < k)%nat -> nth j (firstn k l) d = nth j l d.
Proof.
  revert k j; induction l as [|y t IH]; intros [|k] [|j] H; simpl; try lia; try reflexivity.
  apply IH. lia.
Qed.

(** ** Extra properties *)

(** Extra.  Multiplying every value of a series by a non-zero constant
    (the 9.8 factor of the gravity correction, a sign flip, ...) does not
    change the autocorrelation estimate of any window, for a filter that
    commutes with that scaling (as a linear filter such as [filtfilt]
    does). *)
Theorem autocorrelation_spm_scale_invariant
  (c : Q) (f_ac : list Q -> list Q) (df : series) (a b : Q) :
  ~ c == 0 -> (forall y d, scaled c y d -> scaled c (f_ac y) (f_ac d)) ->
  autocorrelation_method_spm f_ac (map (fun p => (fst p, c * snd p)) df) a b
  = autocorrelation_method_spm f_ac df a b.
Proof.
  intros Hc Hf. destruct (series_scaled_map c df) as [Ht Hv].
  exact (autocorrelation_method_scaled c f_ac _ df a b Hc Hf Ht Hv).
Qed.

(** Extra.  The sign of the first principal axis returned by the SVD does
    not matter: with the same keyword set for maxima and minima (as in the
    notebook's window loop), no peak filter, and a filter for the
    autocorrelation method that commutes with negation, the peak-based and
    the autocorrelation estimates of every window are the same for [u] and
    [-u]. *)
Theorem window_estimates_axis_sign
  (pk : list Q -> list nat) (f_ac : list Q -> list Q) (df : list Row) (u : vec3) (a b : Q) :
  (forall l1 l2, Forall2 Qeq l1 l2 -> pk l1 = pk l2) ->
  (forall y d, scaled (-1) y d -> scaled (-1) (f_ac y) (f_ac d)) ->
  peak_method_spm pk pk (fun d => d) (prepare_session df (vopp u)) a b
  = peak_method_spm pk pk (fun d => d) (prepare_session df u) a b /\
  autocorrelation_method_spm f_ac (prepare_session df (vopp u)) a b
  = autocorrelation_method_spm f_ac (prepare_session df u) a b.
Proof.
  intros Hpk Hf. destruct (prepare_session_vopp df u) as [Ht Hv].
  split.
  - exact (peak_method_negated pk _ _ a b Hpk Ht Hv).
  - apply (autocorrelation_method_scaled (-1) f_ac _ _ a b); try assumption.
    intros H. discriminate H.
Qed.

(** Extra.  [find_peaks] without keywords returns strictly increasing
    indices, each strictly inside the signal ([1 <= k < n - 1]), and at
    most [(n - 1) / 2] of them. *)
Theorem find_peaks_sorted_interior (x : list Q) :
  StronglySorted lt (find_peaks x) /\
  (forall k, In k (find_peaks x) -> 1 <= k < length x - 1)%nat /\
  (2 * length (find_peaks x) <= length x - 1)%nat.
Proof.
  unfold find_peaks, local_maxima. split; [apply lm_loop_sorted|]. split.
  - intros k Hk. split; [exact (lm_loop_ge _ _ _ _ _ Hk) | exact (lm_loop_bound _ _ _ _ _ Hk)].
  - pose proof (lm_loop_count x (length x - 1) (length x) 1). lia.
Qed.

(** Extra.  Every index reported by [find_peaks] without keywords is the
    midpoint [(l + r) / 2] of a plateau [x[l] = ... = x[r]] entered by a
    strict rise [x[l-1] < x[l]] and left by a strict fall
    [x[r+1] < x[r]], with [1 <= l <= r < n - 1]. *)
Theorem find_peaks_plateau_midpoint (x : list Q) (k : nat) :
  In k (find_peaks x) ->
  exists l r, (1 <= l <= r)%nat /\ (r < length x - 1)%nat /\ k = ((l + r) / 2)%nat /\
    at_ x (l - 1) < at_ x l /\
    (forall j, (l <= j <= r)%nat -> at_ x j == at_ x l) /\
    at_ x (S r) < at_ x l.
Proof. intros Hk. exact (lm_loop_sound x _ _ 1 k (le_n 1) Hk). Qed.

(** Extra.  [find_peaks] without keywords finds the same indices in a
    signal multiplied by any positive constant. *)
Theorem find_peaks_positive_scaling (c : Q) (x : list Q) :
  0 < c -> find_peaks (map (Qmult c) x) = find_peaks x.
Proof. intros Hc. exact (local_maxima_scaled c _ _ Hc (scaled_map c x)). Qed.

(** Extra.  [autocorr] keeps the [n - 1] entries of numpy's full
    autocorrelation at the negative lags [-(n-1), ..., -1], in that
    order; the full autocorrelation is symmetric (lag [-k] equals lag
    [k]), so the dropped half repeats them after the zero lag. *)
Theorem autocorr_negative_lags (x : list Q) :
  length (autocorr x) = (length x - 1)%nat /\
  (forall j, (j < length x - 1)%nat ->
     nth j (autocorr x) 0 = correlate_at x x (Z.of_nat j - Z.of_nat (length x - 1))) /\
  (forall k, correlate_at x x (- k) == correlate_at x x k).
Proof.
  split; [apply autocorr_length|]. split; [|apply correlate_at_sym].
  intros j Hj. rewrite autocorr_firstn, nth_firstn_lt by exact Hj.
  apply correlate_full_nth. lia.
Qed.

(** Extra.  Step counts are bounded by the window length [n]: the
    autocorrelation count is at most [(n - 2) / 2] and the peak count of
    [peak_detection_steps] with keyword-free [find_peaks] at most
    [(n - 1) / 2]. *)
Theorem step_counts_bounded (x : list Q) :
  (2 * autocorr_steps x <= length x - 2)%nat /\
  (2 * peak_detection_steps find_peaks find_peaks x <= length x - 1)%nat.
Proof.
  unfold autocorr_steps, peak_detection_steps, find_peaks, local_maxima.
  pose proof (lm_loop_count (autocorr x) (length (autocorr x) - 1) (length (autocorr x)) 1).
  pose proof (lm_loop_count x (length x - 1) (length x) 1).
  pose proof (lm_loop_count (map Qopp x) (length (map Qopp x) - 1) (length (map Qopp x)) 1).
  rewrite autocorr_length in *. rewrite length_map in *. lia.
Qed.

(** Extra.  The two [_EMA] columns of the result frame ([alpha = 0.3])
    never leave the range of the column they smooth: if every window
    estimate lies in [[lo, hi]], so does every smoothed value. *)
Theorem ema_columns_within_range (rows : list spm_row) (lo hi : Q) :
  (forall r, In r rows -> lo <= peak_detection_spm r <= hi /\ lo <= autocorrelation_spm r <= hi) ->
  (forall y, In y (ewm_mean (3#10) (map peak_detection_spm rows)) -> lo <= y <= hi) /\
  (forall y, In y (ewm_mean (3#10) (map autocorrelation_spm rows)) -> lo <= y <= hi).
Proof.
  intros H. assert (Ha : 0 <= 3#10 <= 1) by (split; discriminate).
  split; apply ewm_mean_bounds; try exact Ha; intros x Hx;
    apply in_map_iff in Hx as (r & <- & Hr); apply H, Hr.
Qed.

(** Extra.  After the gravity correction the calibration rows (the first
    nine) have zero mean acceleration on every axis. *)
Theorem calibration_rows_zero_mean_after_correction (df : list Row) :
  df <> [] ->
  veq (vmean (map acc (firstn calibration_span (gravity_correct df)))) vzero.
Proof.
  intros Hne.
  assert (Hc : map acc (firstn calibration_span (gravity_correct df))
               = map (fun a => vscale (98#10) (vsub a (gravity_vector df)))
                     (map acc (firstn calibration_span df))).
  { unfold gravity_correct. rewrite firstn_map, !map_map. reflexivity. }
  assert (Hne' : map acc (firstn calibration_span df) <> []).
  { destruct df as [|r rs]; [congruence|]. discriminate. }
  rewrite Hc. destruct (vmean_affine (98#10) (gravity_vector df) _ Hne') as (H1 & H2 & H3).
  unfold veq, gravity_vector in *. unfold vscale, vsub in *; cbn [vx vy vz] in *.
  rewrite H1, H2, H3. unfold vzero; cbn [vx vy vz]. repeat split; ring.
Qed.

(** Extra.  The first PCA column is centred: its entries sum to zero. *)
Theorem pca_column_sums_to_zero (xs : list vec3) (u : vec3) :
  qsum (pca0 xs u) == 0.
Proof.
  destruct xs as [|a t] eqn:E; [reflexivity|]. rewrite <- E.
  assert (Hne : xs <> []) by (rewrite E; discriminate). clear E.
  unfold pca0; cbv zeta. rewrite qsum_pca0.
  destruct (mean_times_length xs Hne) as (H1 & H2 & H3).
  rewrite H1, H2, H3. ring.
Qed.

Lemma acc_gravity_correct (df : list Row) :
  map acc (gravity_correct df)
  = map (fun a => vscale (98#10) (vsub a (gravity_vector df))) (map acc df).
Proof. unfold gravity_correct. rewrite !map_map. reflexivity. Qed.

(** Extra.  The gravity correction does not change the motion axis: the
    corrected and the raw accelerations have the same principal axes, and
    the first PCA column of the corrected data is 9.8 times that of the
    raw data. *)
Theorem gravity_correction_preserves_pca (df : list Row) (u : vec3) :
  (principal_axis (map acc (gravity_correct df)) u <-> principal_axis (map acc df) u) /\
  scaled (98#10) (pca0 (map acc (gravity_correct df)) u) (pca0 (map acc df) u).
Proof.
  rewrite acc_gravity_correct. split; [|apply pca0_affine].
  assert (Hs : 0 < (98#10) * (98#10)) by reflexivity.
  unfold principal_axis. split; intros [Hu Hmax]; split; try exact Hu; intros w Hw;
    specialize (Hmax w Hw); rewrite !variance_affine in *.
  - exact (proj1 (Qmult_le_l _ _ _ Hs) Hmax).
  - exact (proj2 (Qmult_le_l _ _ _ Hs) Hmax).
Qed.

(** Extra.  [df.time = df.time - df.time.min()] makes the earliest time
    zero and every time non-negative, keeps the latest time at the
    original span, and leaves the sensor columns untouched. *)
Theorem normalise_time_spec (df : list Row) :
  df <> [] ->
  zmin_list (map time (normalise_time df)) = 0%Z /\
  zmax_list (map time (normalise_time df))
    = (zmax_list (map time df) - zmin_list (map time df))%Z /\
  (forall r, In r (normalise_time df) -> (0 <= time r)%Z) /\
  map acc (normalise_time df) = map acc df /\
  map gyro (normalise_time df) = map gyro df.
Proof.
  intros Hne.
  assert (Ht : map time (normalise_time df)
               = map (fun s => s - zmin_list (map time df))%Z (map time df)).
  { unfold normalise_time. rewrite !map_map. reflexivity. }
  assert (Hne' : map time df <> []) by (destruct df; [congruence | discriminate]).
  destruct (zmax_zmin_spec _ Hne') as (_ & _ & Hb).
  split; [|split; [|split; [|split]]].
  - rewrite Ht. destruct (map time df) as [|t ts]; [congruence|].
    unfold zmin_list at 1. simpl map. cbn [fold_left].
    simpl. rewrite fold_min_shift. unfold zmin_list. simpl. lia.
  - rewrite Ht. destruct (map time df) as [|t ts]; [congruence|].
    unfold zmax_list at 1. simpl. rewrite fold_max_shift. reflexivity.
  - intros r Hr. unfold normalise_time in Hr. apply in_map_iff in Hr as (r0 & <- & Hr0).
    simpl. pose proof (Hb (time r0) (in_map time _ _ Hr0)). lia.
  - unfold normalise_time. rewrite map_map. apply map_ext. reflexivity.
  - unfold normalise_time. rewrite map_map. apply map_ext. reflexivity.
Qed.

Lemma window_start_bound (k T : Z) :
  inject_Z k < inject_Z T / 1000 <-> (k * 1000 < T)%Z.
Proof. unfold Qlt, Qdiv; simpl. lia. Qed.

(** Extra.  The window loop starts exactly at the whole seconds [k >= 0]
    with [1000 k] below the last sample time: the last sample always falls
    in the last window, and no window starts at or after it. *)
Theorem window_starts_whole_seconds (df : series) (q : Q) :
  In q (window_starts df) <->
  exists k : nat, q = inject_Z (Z.of_nat k) /\ (Z.of_nat k * 1000 < zmax_list (map fst df))%Z.
Proof.
  unfold window_starts. rewrite in_map_iff.
  split; intros (k & Hq & Hk); exists k; split; try (symmetry; exact Hq) ; try exact (eq_sym Hq).
  - apply in_seq in Hk. apply window_start_bound, ceiling_gt. lia.
  - apply in_seq. apply window_start_bound, ceiling_gt in Hk. lia.
Qed.

Lemma window_split (a b c : Q) (t : Z) :
  a <= b -> b <= c ->
  (Qle_bool (a * 1000) (inject_Z t) && Qlt_bool (inject_Z t) (c * 1000) = true <->
   Qle_bool (a * 1000) (inject_Z t) && Qlt_bool (inject_Z t) (b * 1000) = true \/
   Qle_bool (b * 1000) (inject_Z t) && Qlt_bool (inject_Z t) (c * 1000) = true) /\
  ~ (Qle_bool (a * 1000) (inject_Z t) && Qlt_bool (inject_Z t) (b * 1000) = true /\
     Qle_bool (b * 1000) (inject_Z t) && Qlt_bool (inject_Z t) (c * 1000) = true).
Proof.
  intros Hab Hbc. rewrite !window_pred_iff.
  destruct (Qlt_le_dec (inject_Z t) (b * 1000)) as [Hb | Hb].
  - split; [split; [intros [H1 H2]; left; split; lra | intros [[H1 H2] | [H1 H2]]; split; lra]|].
    intros [[H1 H2] [H3 H4]]. lra.
  - split; [split; [intros [H1 H2]; right; split; lra | intros [[H1 H2] | [H1 H2]]; split; lra]|].
    intros [[H1 H2] [H3 H4]]. lra.
Qed.

(** Extra.  Consecutive windows [[a, b)] and [[b, c)] split the samples
    of [[a, c)]: their sizes add up, no sample is lost or counted twice. *)
Theorem get_time_period_split (df : series) (a b c : Q) :
  a <= b -> b <= c ->
  (length (get_time_period df a b) + length (get_time_period df b c)
   = length (get_time_period df a c))%nat.
Proof.
  intros Hab Hbc. unfold get_time_period.
  induction df as [|[t q] rest IH]; [reflexivity|]. cbn [filter fst].
  destruct (window_split a b c t Hab Hbc) as [S1 S2].
  destruct (Qle_bool (a * 1000) (inject_Z t) && Qlt_bool (inject_Z t) (b * 1000)) eqn:E1;
  destruct (Qle_bool (b * 1000) (inject_Z t) && Qlt_bool (inject_Z t) (c * 1000)) eqn:E2;
  destruct (Qle_bool (a * 1000) (inject_Z t) && Qlt_bool (inject_Z t) (c * 1000)) eqn:E3;
  cbn [length]; try lia.
  all: exfalso; rewrite ?E1, ?E2, ?E3 in S1, S2; intuition discriminate.
Qed.

(** Extra.  The time span [dt] that a non-empty window divides by is
    non-negative and strictly shorter than the nominal window length
    [b - a]. *)
Theorem window_dt_below_length (df : series) (a b : Q) :
  get_time_period df a b <> [] ->
  0 <= window_dt (get_time_period df a b) < b - a.
Proof.
  intros Hne. split; [apply window_dt_nonneg|].
  set (fr := get_time_period df a b) in *.
  assert (Hne' : map fst fr <> []) by (destruct fr; [congruence | discriminate]).
  destruct (zmax_zmin_spec _ Hne') as (Hmax & Hmin & _).
  destruct (window_times df a b _ Hmax) as [_ H2].
  destruct (window_times df a b _ Hmin) as [H3 _].
  unfold window_dt. fold fr. unfold Z.sub; rewrite inject_Z_plus, inject_Z_opp. unfold Qdiv.
  change (/ 1000) with (1 # 1000). lra.
Qed.

Lemma py_int_floor (q : Q) : 0 <= q -> py_int q = Qfloor q.
Proof.
  destruct q as [n d]. unfold py_int, Qfloor, Qle; simpl. intros H.
  apply Z.quot_div_nonneg; lia.
Qed.

(** Extra.  For a non-negative cadence the exported value is the floor of
    the cadence capped at 254, and it is monotone: a higher cadence never
    exports a lower value. *)
Theorem cadence_export_floor_monotone (c : Q) :
  0 <= c ->
  cad_value c = Qfloor (if Qle_bool c 254 then c else 254) /\
  (forall c', c <= c' -> (cad_value c <= cad_value c')%Z).
Proof.
  intros Hc.
  assert (Hf : forall d, 0 <= d -> cad_value d = Qfloor (if Qle_bool d 254 then d else 254)).
  { intros d Hd. unfold cad_value. apply py_int_floor.
    destruct (Qle_bool d 254); [exact Hd | discriminate]. }
  split; [exact (Hf c Hc)|]. intros c' Hcc.
  rewrite (Hf c Hc), (Hf c') by lra. apply Qfloor_resp_le.
  destruct (Qle_bool c 254) eqn:E1; destruct (Qle_bool c' 254) eqn:E2;
    try apply Qle_bool_iff in E1; try apply Qle_bool_iff in E2.
  - exact Hcc.
  - exact E1.
  - exfalso. rewrite <- not_true_iff_false, Qle_bool_iff in E1. lra.
  - lra.
Qed.

Lemma find_peaks_Qeq (l1 l2 : list Q) : Forall2 Qeq l1 l2 -> find_peaks l1 = find_peaks l2.
Proof.
  intros H. apply (local_maxima_scaled 1); [reflexivity|].
  eapply Forall2_impl; [|exact H]. intros p q E. rewrite Qmult_1_l. exact E.
Qed.


(** ** Instances of the extra properties with hypotheses *)

Lemma autocorrelation_spm_scale_invariant_witness :
  ~ (98#10) == 0 /\
  autocorrelation_method_spm (fun d => d) (map (fun p => (fst p, (98#10) * snd p)) trace_df) 0 10
  = autocorrelation_method_spm (fun d => d) trace_df 0 10.
Proof.
  assert (Hc : ~ (98#10) == 0) by (intros H; discriminate H).
  split; [exact Hc|].
  exact (autocorrelation_spm_scale_invariant (98#10) (fun d => d) trace_df 0 10 Hc (fun y d H => H)).
Defined.

Lemma window_estimates_axis_sign_witness :
  peak_method_spm find_peaks find_peaks (fun d => d) (prepare_session trace_rows (vopp e_x)) 0 2
  = peak_method_spm find_peaks find_peaks (fun d => d) (prepare_session trace_rows e_x) 0 2 /\
  autocorrelation_method_spm (fun d => d) (prepare_session trace_rows (vopp e_x)) 0 2
  = autocorrelation_method_spm (fun d => d) (prepare_session trace_rows e_x) 0 2.
Proof.
  exact (window_estimates_axis_sign find_peaks (fun d => d) trace_rows e_x 0 2
           find_peaks_Qeq (fun y d H => H)).
Defined.

Lemma find_peaks_plateau_midpoint_witness :
  In 2%nat (find_peaks [0; 1; 1; 1; 0]) /\
  exists l r, (1 <= l <= r)%nat /\ (r < length [0; 1; 1; 1; 0] - 1)%nat /\ 2%nat = ((l + r) / 2)%nat /\
    at_ [0; 1; 1; 1; 0] (l - 1) < at_ [0; 1; 1; 1; 0] l /\
    (forall j, (l <= j <= r)%nat -> at_ [0; 1; 1; 1; 0] j == at_ [0; 1; 1; 1; 0] l) /\
    at_ [0; 1; 1; 1; 0] (S r) < at_ [0; 1; 1; 1; 0] l.
Proof.
  assert (H : In 2%nat (find_peaks [0; 1; 1; 1; 0])) by (vm_compute; left; reflexivity).
  split; [exact H|]. exact (find_peaks_plateau_midpoint _ _ H).
Defined.

Lemma find_peaks_positive_scaling_witness :
  0 < 3 /\ find_peaks (map (Qmult 3) (map snd trace_df)) = find_peaks (map snd trace_df).
Proof.
  assert (H : 0 < 3) by reflexivity.
  split; [exact H|]. exact (find_peaks_positive_scaling 3 _ H).
Defined.

Lemma ema_columns_within_range_witness :
  let rows := [ {| peak_detection_spm := 100; fft_spm := 120; autocorrelation_spm := 96 |};
                {| peak_detection_spm := 110; fft_spm := 114; autocorrelation_spm := 104 |} ] in
  (forall r, In r rows -> 90 <= peak_detection_spm r <= 120 /\ 90 <= autocorrelation_spm r <= 120) /\
  (forall y, In y (ewm_mean (3#10) (map peak_detection_spm rows)) -> 90 <= y <= 120) /\
  (forall y, In y (ewm_mean (3#10) (map autocorrelation_spm rows)) -> 90 <= y <= 120).
Proof.
  intros rows.
  assert (H : forall r, In r rows ->
                90 <= peak_detection_spm r <= 120 /\ 90 <= autocorrelation_spm r <= 120).
  { intros r [<- | [<- | []]]; simpl; repeat split; apply Qle_bool_iff; reflexivity. }
  split; [exact H|]. exact (ema_columns_within_range rows 90 120 H).
Defined.

Lemma calibration_rows_zero_mean_after_correction_witness :
  trace_rows <> [] /\
  veq (vmean (map acc (firstn calibration_span (gravity_correct trace_rows)))) vzero.
Proof.
  assert (H : trace_rows <> []) by (vm_compute; discriminate).
  split; [exact H|]. exact (calibration_rows_zero_mean_after_correction trace_rows H).
Defined.

Lemma normalise_time_spec_witness :
  trace_rows <> [] /\
  zmin_list (map time (normalise_time trace_rows)) = 0%Z /\
  zmax_list (map time (normalise_time trace_rows))
    = (zmax_list (map time trace_rows) - zmin_list (map time trace_rows))%Z.
Proof.
  assert (H : trace_rows <> []) by (vm_compute; discriminate).
  destruct (normalise_time_spec trace_rows H) as (A & B & _).
  split; [exact H|]. split; [exact A|exact B].
Defined.

Lemma get_time_period_split_witness :
  0 <= 4 /\ 4 <= 10 /\
  (length (get_time_period trace_df 0 4) + length (get_time_period trace_df 4 10)
   = length (get_time_period trace_df 0 10))%nat.
Proof.
  assert (H1 : 0 <= 4) by (apply Qle_bool_iff; reflexivity).
  assert (H2 : 4 <= 10) by (apply Qle_bool_iff; reflexivity).
  split; [exact H1|split; [exact H2|]]. exact (get_time_period_split trace_df 0 4 10 H1 H2).
Defined.

Lemma window_dt_below_length_witness :
  get_time_period trace_df 2 5 <> [] /\
  0 <= window_dt (get_time_period trace_df 2 5) < 5 - 2.
Proof.
  assert (H : get_time_period trace_df 2 5 <> []) by (vm_compute; discriminate).
  split; [exact H|]. exact (window_dt_below_length trace_df 2 5 H).
Defined.

Lemma cadence_export_floor_monotone_witness :
  0 <= 1537 # 10 /\
  cad_value (1537 # 10) = Qfloor (if Qle_bool (1537 # 10) 254 then 1537 # 10 else 254) /\
  (cad_value (1537 # 10) <= cad_value 300)%Z.
Proof.
  assert (H : 0 <= 1537 # 10) by (apply Qle_bool_iff; reflexivity).
  destruct (cadence_export_floor_monotone _ H) as [A B].
  split; [exact H|split; [exact A|]]. apply B. apply Qle_bool_iff; reflexivity.
Defined.
